(** * A shallow embedding of the Mal interpreter (TypeScript)

    The development follows the three source files:

    - [Module Types]: [types.ts], the class hierarchy of Mal values with
      JavaScript object identity ([===]) made explicit through a heap;
    - the top level: the evaluator of the last step ([EVAL], [EVAL_NOT_CATCH],
      the special forms, [MACROEXPAND], [QUASIQUOTE], [TRY]) together with the
      predicates and checks of [checker.ts];
    - [Module Step5]: the evaluator of the tail-call step, whose helpers still
      evaluate the expression they hand back to the loop.

    Evaluation is written in a state-and-exception monad over a store of
    environment frames, function objects and error objects: these are the
    JavaScript objects that the code mutates in place and shares by reference.
    The unbounded [while (true)] loop and the recursion of [EVAL] are bounded
    by a fuel argument.

    The evaluators import files that are not part of the sources: [./env],
    [./core], [./errors], [./reader], [./printer], [./utils], and a later
    [types.ts] than the one at hand (with [MalError], [MalNativeFunction],
    the fields of [MalFunction] and the names of [Symbols]). The built-ins,
    the reader and the printer are parameters; the environment, the error
    classes and the class hierarchy follow the specification, and each such
    definition says so. *)

From stdpp Require Import base option list strings numbers gmap.
From Stdlib Require Import ZArith Lia.

#[global] Set Warnings "-register-all".
Open Scope string_scope.
Open Scope list_scope.

(* ===================================================================== *)
(** ** types.ts *)
(* ===================================================================== *)

(** The classes of [types.ts] as the file stands: [MalList] and [MalVector]
    both extend [MalType], and [MalVector] has an empty body. Objects live
    in a heap, so that [===] on objects and arrays is equality of
    addresses. *)

Module Types.

(** [this.constructor.name], the string returned by the [type] getter. *)
Inductive ClassName :=
| CMalType | CMalList | CMalNumber | CMalString | CMalBoolean | CMalNil
| CMalUndefined | CMalKeyword | CMalVector | CMalHashMap | CMalSymbol
| CMalFunction.

#[global] Instance ClassName_eq_dec : EqDecision ClassName.
Proof. solve_decision. Defined.

(** A JavaScript value as it sits in a [value] field or in an array slot.
    Arrays, class instances and functions are references into the heap and
    are compared by address. A [JsNumber] stands for an integer that the
    host's doubles hold exactly (below 2^53 in absolute value); fractions,
    larger numbers, [NaN] and the infinities are not represented. *)
Inductive JsValue :=
| JsNumber (n : Z)
| JsString (s : string)
| JsBoolean (b : bool)
| JsNull
| JsUndefined
| JsObject (a : nat).

#[global] Instance JsValue_eq_dec : EqDecision JsValue.
Proof. solve_decision. Defined.

Inductive HeapCell :=
| Instance (cls : ClassName) (value : JsValue)
| JsArray (items : list JsValue)
| JsFunction.

Abbreviation Heap := (list HeapCell).

(** [a === b] *)
Definition strict_equal (a b : JsValue) : bool :=
  match a, b with
  | JsNumber n, JsNumber m => bool_decide (n = m)
  | JsString s, JsString t => bool_decide (s = t)
  | JsBoolean x, JsBoolean y => bool_decide (x = y)
  | JsNull, JsNull => true
  | JsUndefined, JsUndefined => true
  | JsObject x, JsObject y => bool_decide (x = y)
  | _, _ => false
  end.

(** Truthiness, as the operator [||] tests it. *)
Definition truthy (v : JsValue) : bool :=
  match v with
  | JsNumber n => negb (bool_decide (n = 0%Z))
  | JsString s => negb (bool_decide (s = ""))
  | JsBoolean b => b
  | JsNull | JsUndefined => false
  | JsObject _ => true
  end.

(** The fields of the instance stored at an address. *)
Definition instance (h : Heap) (a : nat) : option (ClassName * JsValue) :=
  match h !! a with
  | Some (Instance c v) => Some (c, v)
  | _ => None
  end.

Definition is_instance (h : Heap) (v : JsValue) : Prop :=
  match v with
  | JsObject a => is_Some (instance h a)
  | _ => False
  end.

(** The array behind a [value] field. *)
Definition array (h : Heap) (v : JsValue) : option (list JsValue) :=
  match v with
  | JsObject a =>
      match h !! a with
      | Some (JsArray items) => Some items
      | _ => None
      end
  | _ => None
  end.

(** [new C(value)]: the instance is stored at the next free address. *)
Definition new (h : Heap) (c : ClassName) (v : JsValue) : nat * Heap :=
  (length h, h ++ [Instance c v]).

(** *** class MalType *)

(** [valueEqual(another)]:
    [this.type === another.type && this.value === another.value]. *)
Definition valueEqual (this another : ClassName * JsValue) : bool :=
  bool_decide (this.1 = another.1) && strict_equal this.2 another.2.

(** [equal(another)]: [this === another || this.valueEqual(another)].
    Both are addresses of instances; [None] when one of them is not. *)
Definition equal (h : Heap) (this another : nat) : option bool :=
  o1 ← instance h this;
  o2 ← instance h another;
  Some (bool_decide (this = another) || valueEqual o1 o2).

(** *** class MalList extends MalType *)

(** The classes that declare (or inherit) [get], [first], [length], [map]
    and [group]: in this file only [MalList] does; [MalVector] is declared
    with an empty body. *)
Definition has_list_methods (c : ClassName) : bool :=
  bool_decide (c = CMalList).

(** [this.value[index]]: [undefined] outside [0 .. length-1]. *)
Definition index_array (items : list JsValue) (index : Z) : JsValue :=
  if bool_decide (0 ≤ index)%Z
  then default JsUndefined (items !! Z.to_nat index)
  else JsUndefined.

(** [value[index]] for any [value], the index being an integer. Reading a
    property of [null] or [undefined] is a [TypeError] of the host, here
    [None]; so is an address that holds nothing, which is no state of the
    host. An array gives its element, a string the character at the index
    (as a one-character string), and a number, a boolean, a class instance
    or a function has no property under an index and gives [undefined]. *)
Definition property_at (h : Heap) (value : JsValue) (index : Z) : option JsValue :=
  match value with
  | JsNull | JsUndefined => None
  | JsNumber _ | JsBoolean _ => Some JsUndefined
  | JsString s =>
      Some (if bool_decide (0 ≤ index)%Z
            then match String.get (Z.to_nat index) s with
                 | Some c => JsString (String c EmptyString)
                 | None => JsUndefined
                 end
            else JsUndefined)
  | JsObject a =>
      match h !! a with
      | Some (JsArray items) => Some (index_array items index)
      | Some _ => Some JsUndefined
      | None => None
      end
  end.

(** The outcome of a method call: a value and the heap after the call, or
    the host's [TypeError] (no such method, or a property read on [null]
    or [undefined]). *)
Inductive Outcome :=
| Returns (v : JsValue) (h : Heap)
| TypeError.

(** [get(index)]: [this.value[index] || new MalUndefined()]. The
    constructor of [MalType] takes [value: any], so the [value] of a List
    can be any value. *)
Definition get (h : Heap) (this : nat) (index : Z) : Outcome :=
  match instance h this with
  | Some (c, value) =>
      if has_list_methods c then
        match property_at h value index with
        | Some v =>
            if truthy v then Returns v h
            else let '(a, h') := new h CMalUndefined JsUndefined in
                 Returns (JsObject a) h'
        | None => TypeError
        end
      else TypeError
  | None => TypeError
  end.

(** [first()]: [this.get(0)]. *)
Definition first (h : Heap) (this : nat) : Outcome := get h this 0.

(** [get length()]: [this.value.length]. *)
Definition length_ (h : Heap) (this : nat) : option nat :=
  '(c, value) ← instance h this;
  if has_list_methods c then length <$> array h value else None.

(** A well-formed sequence object of class [c]: an instance whose [value]
    is an array of [MalType] instances. *)
Definition sequence (h : Heap) (c : ClassName) (s : nat) (items : list JsValue) : Prop :=
  ∃ value, instance h s = Some (c, value)
           ∧ array h value = Some items
           ∧ Forall (is_instance h) items.

(** Two sequences have pairwise [equal] elements. *)
Definition pairwise_equal (h : Heap) (xs ys : list JsValue) : Prop :=
  Forall2 (λ x y, ∃ a b, x = JsObject a ∧ y = JsObject b ∧ equal h a b = Some true) xs ys.

(** [array.slice(begin, end)]: a negative index counts from the end, and
    both are clamped to the array. *)
Definition slice_index (len : nat) (k : Z) : nat :=
  if bool_decide (k < 0)%Z then Z.to_nat (Z.max (Z.of_nat len + k) 0)
  else Z.to_nat (Z.min k (Z.of_nat len)).

Definition slice (items : list JsValue) (begin_ end_ : Z) : list JsValue :=
  let from := slice_index (length items) begin_ in
  let to := slice_index (length items) end_ in
  take (to - from) (drop from items).

(** The loop of [group(chunkSize)] from the index [i]:
    [for (; i < this.length; i += chunkSize) yield this.value.slice(i, i + chunkSize)].
    The result is the list of the chunks that the generator yields before
    it finishes, [None] when it has not finished after [fuel] rounds. *)
Fixpoint group_from (fuel : nat) (items : list JsValue) (chunkSize i : Z)
    : option (list (list JsValue)) :=
  if bool_decide (i < Z.of_nat (length items))%Z then
    match fuel with
    | 0 => None
    | S fuel' =>
        chunks ← group_from fuel' items chunkSize (i + chunkSize);
        Some (slice items i (i + chunkSize) :: chunks)
    end
  else Some [].

(** [group(chunkSize)] on the List at [this]. *)
Definition group (fuel : nat) (h : Heap) (this : nat) (chunkSize : Z)
    : option (list (list JsValue)) :=
  '(c, value) ← instance h this;
  if has_list_methods c then
    items ← array h value; group_from fuel items chunkSize 0
  else None.

(** *** class MalSymbol extends MalType *)

(** [MalSymbol.get(name)], on the heap and the static [map]. The keys of
    [map] are the host's registered symbols [Symbol.for(name)], one per
    name, so the map is keyed by the name. A stored token is an object and
    passes the test [!token] as present. *)
Definition MalSymbol_get (h : Heap) (map : gmap string nat) (name : string)
    : nat * Heap * gmap string nat :=
  match map !! name with
  | Some token => (token, h, map)
  | None =>
      let '(token, h') := new h CMalSymbol (JsString name) in
      (token, h', <[name := token]> map)
  end.

(** Every token of the map is a [MalSymbol] that carries the name it is
    stored under. *)
Definition interned (h : Heap) (map : gmap string nat) : Prop :=
  ∀ name token, map !! name = Some token →
    instance h token = Some (CMalSymbol, JsString name).

End Types.

(* ===================================================================== *)
(** ** Values, store and monad of the evaluator *)
(* ===================================================================== *)

(** The values the evaluator handles. Functions, atoms and errors are
    objects that the code mutates ([isMacro], the atom's content, the trace
    of an error), so a value only holds their address in the store. The last
    four constructors are host values: [undefined] (a missing array slot),
    and the values that the code throws and that [try*] can bind like any
    other value: [false] (thrown by [checkCatchAst]), the string built by
    [MalType.call], and the host's [TypeError] for a call through a value
    without a [call] method. *)
Inductive MalType :=
| MalNil
| MalBoolean (b : bool)
| MalNumber (n : Z)
| MalString (s : string)
| MalKeyword (s : string)
| MalSymbol (s : string)
| MalList (items : list MalType)
| MalVector (items : list MalType)
| MalHashMap (entries : list (MalType * MalType))
| MalFunction (f : nat)
| MalNativeFunction (name : string)
| MalAtom (a : nat)
| MalError (e : nat)
| JsUndefined
| JsFalse
| JsNotCallable (this : MalType)
| JsTypeError.

(** The classes named by [checker.ts]. *)
Inductive Class :=
| ClsMalType | ClsMalList | ClsMalVector | ClsMalSymbol | ClsMalNumber
| ClsMalString | ClsMalKeyword | ClsMalBoolean | ClsMalNil | ClsMalHashMap
| ClsMalFunction | ClsMalNativeFunction | ClsMalAtom | ClsMalError.

(** Modelled from the spec: [isInstance] of [./utils] and the class
    hierarchy of the [types.ts] that this evaluator is compiled against are
    missing. [isInstance] is [instanceof]; List and Vector are the two
    sequentials (§3), and [isMalVector], which is [MalVector] and not
    [MalList], and [isMalSequential], which is [MalVector] alone, fix
    [MalList] as a subclass of [MalVector]. *)
Definition isInstance (instance : MalType) (c : Class) : bool :=
  match instance, c with
  | (JsUndefined | JsFalse | JsNotCallable _ | JsTypeError), _ => false
  | _, ClsMalType => true
  | MalNil, ClsMalNil => true
  | MalBoolean _, ClsMalBoolean => true
  | MalNumber _, ClsMalNumber => true
  | MalString _, ClsMalString => true
  | MalKeyword _, ClsMalKeyword => true
  | MalSymbol _, ClsMalSymbol => true
  | MalList _, (ClsMalList | ClsMalVector) => true
  | MalVector _, ClsMalVector => true
  | MalHashMap _, ClsMalHashMap => true
  | MalFunction _, ClsMalFunction => true
  | MalNativeFunction _, ClsMalNativeFunction => true
  | MalAtom _, ClsMalAtom => true
  | MalError _, ClsMalError => true
  | _, _ => false
  end.

(** Modelled from the spec: the enum [Symbols] is empty in [types.ts]; the
    names are those of §4.4 and §4.4.1. *)
Module Symbols.
Definition Def := "def!".
Definition Defmacro := "defmacro!".
Definition Let := "let*".
Definition Do := "do".
Definition If := "if".
Definition Fn := "fn*".
Definition Quote := "quote".
Definition Quasiquote := "quasiquote".
Definition Unquote := "unquote".
Definition SpliceUnquote := "splice-unquote".
Definition Macroexpand := "macroexpand".
Definition Try := "try*".
Definition Catch := "catch*".
Definition Eval := "eval".
Definition Concat := "concat".
Definition Cons := "cons".
Definition Argv := "*ARGV*".
End Symbols.

(** Modelled from the spec: the error classes of [./errors] and [MalError]
    of [types.ts] are missing. An Error carries what its constructor was
    given and a trace of ASTs (§3); every kind of §7 is an Error.
    [UserThrow value] is the Error of [(throw value)]. *)
Inductive ErrorKind :=
| UserThrow (value : MalType)
| MalParametersError (symbol : string) (calledNum excepted : nat)
| MalMultipleParametersError (symbol : string) (calledNum atLeastExcepted : nat)
| MalUnexpectedTokenType (instance : MalType) (excepted : list Class)
| MalUnexpectedLength (instance : MalType) (base : nat)
| MalInvalidRestParameter (bindings : MalType)
| UnboundSymbol (symbol : string)
| ArityError (params args : nat).

Record ErrorObject := {
  kind : ErrorKind;
  asts : list MalType            (* the trace *)
}.

(** A [MalFunction]: the fields [ast], [params] and [env] given to
    [new MalFunction(ast, bindings, env, fn)] and the flag that [defmacro!]
    sets. The closure [fn] is determined by the three other fields, see
    [MalFunction_call]. *)
Record FunctionObject := {
  f_ast : MalType;
  f_params : MalType;
  f_env : nat;
  isMacro : bool
}.

(** A [MalEnv]: the link to the outer frame and the bindings of this one. *)
Record Frame := {
  outer : option nat;
  data : gmap string MalType
}.

Record State := {
  envs : list Frame;
  functions : list FunctionObject;
  errors : list ErrorObject;
  atoms : list MalType
}.

(** The outcome of running a piece of the evaluator from a state. *)
Inductive Result (A : Type) :=
| Return (a : A) (st : State)
| Throw (error : MalType) (st : State)
| OutOfFuel.
Arguments Return {A} a st.
Arguments Throw {A} error st.
Arguments OutOfFuel {A}.

Definition M (A : Type) : Type := State → Result A.

Definition ret {A} (a : A) : M A := λ st, Return a st.

Definition bind {A B} (m : M A) (k : A → M B) : M B :=
  λ st, match m st with
        | Return a st' => k a st'
        | Throw e st' => Throw e st'
        | OutOfFuel => OutOfFuel
        end.

(** [throw e] *)
Definition throw {A} (e : MalType) : M A := λ st, Throw e st.

(** [try { m } catch (error) { handler(error) }] *)
Definition try_catch {A} (m : M A) (handler : MalType → M A) : M A :=
  λ st, match m st with
        | Return a st' => Return a st'
        | Throw e st' => handler e st'
        | OutOfFuel => OutOfFuel
        end.

Declare Scope mal_scope.
Delimit Scope mal_scope with mal.
Notation "x <- m ;; k" := (bind m (λ x, k))
  (at level 100, m at next level, right associativity) : mal_scope.
Notation "m ;; k" := (bind m (λ _, k))
  (at level 100, right associativity) : mal_scope.
Open Scope mal_scope.

(** [array.map(f)] with an effectful [f], left to right. *)
Fixpoint mapM {A B} (f : A → M B) (l : list A) : M (list B) :=
  match l with
  | [] => ret []
  | x :: l' => y <- f x ;; ys <- mapM f l' ;; ret (y :: ys)
  end.

(** Updates of one component of the state. *)
Definition with_envs (f : list Frame → list Frame) (st : State) : State :=
  {| envs := f (envs st); functions := functions st;
     errors := errors st; atoms := atoms st |}.

Definition with_functions (f : list FunctionObject → list FunctionObject) (st : State) : State :=
  {| envs := envs st; functions := f (functions st);
     errors := errors st; atoms := atoms st |}.

Definition with_errors (f : list ErrorObject → list ErrorObject) (st : State) : State :=
  {| envs := envs st; functions := functions st;
     errors := f (errors st); atoms := atoms st |}.

(** [throw new K(...)]: the error object is allocated and thrown. *)
Definition throw_new {A} (k : ErrorKind) : M A :=
  λ st, Throw (MalError (length (errors st)))
              (with_errors (λ es, es ++ [{| kind := k; asts := [] |}]) st).

(** Modelled from the spec: [MalError.pushAst] is missing; the AST is
    appended to the trace of the error (§4.4.3). *)
Definition pushAst (e : nat) (a : MalType) : M () :=
  λ st, Return ()
          (with_errors (alter (λ o, {| kind := kind o; asts := asts o ++ [a] |}) e) st).

(** The trace of the error object at an address. *)
Definition trace (st : State) (e : nat) : list MalType :=
  default [] (asts <$> errors st !! e).

(** [array[i]] *)
Definition item (i : nat) (l : list MalType) : MalType :=
  default JsUndefined (l !! i).

(** [(t as MalSymbol).value], used once [t] is known to be a symbol. *)
Definition symbol_name (t : MalType) : string :=
  match t with MalSymbol s => s | _ => "" end.

(** The elements of a sequential. *)
Definition seq_items (t : MalType) : list MalType :=
  match t with MalList l | MalVector l => l | _ => [] end.

(* ===================================================================== *)
(** ** env.ts *)
(* ===================================================================== *)

(** Modelled from the spec: [./env] is missing. §4.3: a frame holds a link
    to its parent and a mapping from symbols to terms; [find] returns the
    nearest frame of the chain that binds the symbol, [has] says whether
    there is one, [get] returns the bound term or fails with
    [UnboundSymbol], [set] binds in this frame and returns the term. The
    constructor binds parameters to arguments, the symbol after [&] to the
    List of the remaining arguments. *)
Module MalEnv.

(** The chain is followed for at most as many steps as there are frames. *)
Fixpoint find_from (n : nat) (st : State) (e : nat) (sym : string) : option nat :=
  match n with
  | 0 => None
  | S n' =>
      match envs st !! e with
      | None => None
      | Some fr =>
          match data fr !! sym with
          | Some _ => Some e
          | None =>
              match outer fr with
              | Some p => find_from n' st p sym
              | None => None
              end
          end
      end
  end.

Definition find (st : State) (e : nat) (sym : string) : option nat :=
  find_from (length (envs st)) st e sym.

Definition has (e : nat) (sym : string) : M bool :=
  λ st, Return (bool_decide (is_Some (find st e sym))) st.

(** The term bound to the symbol in the nearest frame that binds it. *)
Definition lookup (st : State) (e : nat) (sym : string) : option MalType :=
  e' ← find st e sym; fr ← envs st !! e'; data fr !! sym.

Definition get (e : nat) (sym : string) : M MalType :=
  λ st, match lookup st e sym with
        | Some v => Return v st
        | None => throw_new (UnboundSymbol sym) st
        end.

Definition set (e : nat) (sym : string) (v : MalType) : M MalType :=
  λ st, Return v
          (with_envs (alter (λ fr, {| outer := outer fr; data := <[sym := v]> (data fr) |}) e) st).

(** The bindings of a new frame, or the error of the constructor. *)
Fixpoint bind_params (bindings : MalType) (nargs : nat)
    (binds exprs : list MalType) (d : gmap string MalType)
    : ErrorKind + gmap string MalType :=
  match binds with
  | [] =>
      match exprs with
      | [] => inr d
      | _ :: _ => inl (ArityError (length (seq_items bindings)) nargs)
      end
  | MalSymbol s :: binds' =>
      if bool_decide (s = "&") then
        match binds' with
        | [MalSymbol r] =>
            if bool_decide (r = "&") then inl (MalInvalidRestParameter bindings)
            else inr (<[r := MalList exprs]> d)
        | _ => inl (MalInvalidRestParameter bindings)
        end
      else
        match exprs with
        | e :: exprs' => bind_params bindings nargs binds' exprs' (<[s := e]> d)
        | [] => inl (ArityError (length (seq_items bindings)) nargs)
        end
  | b :: _ => inl (MalUnexpectedTokenType b [ClsMalSymbol])
  end.

(** [new MalEnv(outer, binds, exprs)]; [new MalEnv()] is
    [new None [] []] and [new MalEnv(outer)] is [new (Some outer) [] []]. *)
Definition new (o : option nat) (binds exprs : list MalType) : M nat :=
  λ st, match bind_params (MalList binds) (length exprs) binds exprs ∅ with
        | inl k => throw_new k st
        | inr d => Return (length (envs st))
                     (with_envs (λ es, es ++ [{| outer := o; data := d |}]) st)
        end.

End MalEnv.

(* ===================================================================== *)
(** ** checker.ts *)
(* ===================================================================== *)

Definition isMalList (instance : MalType) : bool := isInstance instance ClsMalList.

Definition isMalVector (instance : MalType) : bool :=
  isInstance instance ClsMalVector && negb (isInstance instance ClsMalList).

Definition isMalSequential (instance : MalType) : bool := isInstance instance ClsMalVector.

Definition isMalHashMap (instance : MalType) : bool := isInstance instance ClsMalHashMap.

Definition isMalSymbol (instance : MalType) : bool := isInstance instance ClsMalSymbol.

Definition isMalFunction (instance : MalType) : bool := isInstance instance ClsMalFunction.

Definition isMalNativeFunction (instance : MalType) : bool :=
  isInstance instance ClsMalNativeFunction.

Definition isMalError (instance : MalType) : bool := isInstance instance ClsMalError.

Definition isMalNil (instance : MalType) : bool := isInstance instance ClsMalNil.

(** [isInstance(instance, MalBoolean) && instance.value === false] *)
Definition isMalFalse (instance : MalType) : bool :=
  isInstance instance ClsMalBoolean
  && match instance with MalBoolean b => negb b | _ => false end.

Definition isPositive (instance : MalType) : bool :=
  negb (isMalFalse instance || isInstance instance ClsMalNil).

(** [isMalSymbol(instance) && instance.value === "&"] *)
Definition isRestMalSymbol (instance : MalType) : bool :=
  isMalSymbol instance && bool_decide (symbol_name instance = "&").

Definition isMalSymbolCatch (instance : MalType) : bool :=
  isMalSymbol instance && bool_decide (symbol_name instance = Symbols.Catch).

Definition checkMalType (instance : MalType) (excepted unexcepted : list Class) : M () :=
  if forallb (λ c, negb (isInstance instance c)) excepted
     || existsb (λ c, isInstance instance c) unexcepted
  then throw_new (MalUnexpectedTokenType instance excepted)
  else ret ().

Definition checkMalTypeIsMalSymbol (instance : MalType) : M () :=
  checkMalType instance [ClsMalSymbol] [].

Definition checkMalTypeIsMalSequential (instance : MalType) : M () :=
  checkMalType instance [ClsMalVector] [].

Definition checkMalTypeIsMalVector (instance : MalType) : M () :=
  checkMalType instance [ClsMalVector] [ClsMalList].

Definition checkMalTypeIsMalList (instance : MalType) : M () :=
  checkMalType instance [ClsMalList] [].

Definition checkMalTypeIsMalFunction (instance : MalType) : M () :=
  checkMalType instance [ClsMalFunction] [].

Definition checkMalInnerParameters (symbol : string) (parameters : list MalType)
    (excepted : nat) : M () :=
  let calledNum := length parameters in
  if bool_decide (calledNum ≠ excepted)
  then throw_new (MalParametersError symbol calledNum excepted)
  else ret ().

Definition checkMalInnerMultipleParameters (symbol : string) (parameters : list MalType)
    (atLeastExcepted : nat) : M () :=
  let calledNum := length parameters in
  if bool_decide (calledNum < atLeastExcepted)
  then throw_new (MalMultipleParametersError symbol calledNum atLeastExcepted)
  else ret ().

(** [instance.length % base !== 0]; for [base] 0 the remainder is [NaN],
    which differs from 0. *)
Definition checkMalSequentialBaseLength (instance : MalType) (base : nat) : M () :=
  if bool_decide (base = 0 ∨ length (seq_items instance) `mod` base ≠ 0)
  then throw_new (MalUnexpectedLength instance base)
  else ret ().

(** The loop of [checkMalBindings], from the last index down: [below] are
    the bindings under the one examined, whose index is their number. *)
Fixpoint checkMalBindings_from (bindings : MalType) (rev_items : list MalType) : M () :=
  match rev_items with
  | [] => ret ()
  | binding :: below =>
      let index := length below in
      checkMalTypeIsMalSymbol binding ;;
      if isRestMalSymbol binding
         && negb (bool_decide (index + 2 = length (seq_items bindings)))
      then throw_new (MalInvalidRestParameter bindings)
      else checkMalBindings_from bindings below
  end.

Definition checkMalBindings (symbol : string) (bindings : MalType) : M () :=
  checkMalTypeIsMalSequential bindings ;;
  checkMalBindings_from bindings (rev (seq_items bindings)).

Definition checkCatchAst (instance : MalType) : M () :=
  if negb (isMalList instance) then throw JsFalse else
  let catchSymbol := item 0 (seq_items instance) in
  let catchParams := drop 1 (seq_items instance) in
  if negb (isMalSymbolCatch catchSymbol) then throw JsFalse else
  checkMalInnerParameters Symbols.Catch catchParams 2 ;;
  let errorSymbol := item 0 catchParams in
  checkMalTypeIsMalSymbol errorSymbol.

(** The other predicates and checks of the file. *)
Definition isMalType (instance : MalType) : bool := isInstance instance ClsMalType.

Definition isMalKeyword (instance : MalType) : bool := isInstance instance ClsMalKeyword.

Definition isMalString (instance : MalType) : bool := isInstance instance ClsMalString.

Definition isMalAtom (instance : MalType) : bool := isInstance instance ClsMalAtom.

(** [isInstance(instance, MalBoolean) && instance.value === true] *)
Definition isMalTrue (instance : MalType) : bool :=
  isInstance instance ClsMalBoolean
  && match instance with MalBoolean b => b | _ => false end.

Definition checkMalTypeIsMalNumber (instance : MalType) : M () :=
  checkMalType instance [ClsMalNumber] [].

Definition checkMalTypeIsFunction (instance : MalType) : M () :=
  checkMalType instance [ClsMalFunction; ClsMalNativeFunction] [].

Definition checkMalTypeIsMalNativeFunction (instance : MalType) : M () :=
  checkMalType instance [ClsMalNativeFunction] [].

Definition checkMalTypeIsMalFunctionOrMalNativeFunction (instance : MalType) : M () :=
  checkMalType instance [ClsMalFunction; ClsMalNativeFunction] [].

Definition checkMalTypeIsMalString (instance : MalType) : M () :=
  checkMalType instance [ClsMalString] [].

Definition checkMalTypeIsMalAtom (instance : MalType) : M () :=
  checkMalType instance [ClsMalAtom] [].

Definition checkMalTypeIsMalHashMap (instance : MalType) : M () :=
  checkMalType instance [ClsMalHashMap] [].

Definition checkMalTypeIsMalType (instance : MalType) : M () :=
  checkMalType instance [ClsMalType] [].

Definition checkMalTypeIsMalError (instance : MalType) : M () :=
  checkMalType instance [ClsMalError] [].

(* ===================================================================== *)
(** ** The evaluator *)
(* ===================================================================== *)

(** [MalSymbol.get(name).equal(t)]: by [MalType.equal], the same object or
    the same class and the same [value]; symbols are interned. *)
Definition symbol_equal (name : string) (t : MalType) : bool :=
  match t with MalSymbol s => bool_decide (s = name) | _ => false end.

(** [new MalList([MalSymbol.get(Symbols.Quote), ast])] *)
Definition quoted (ast : MalType) : MalType :=
  MalList [MalSymbol Symbols.Quote; ast].

(** [isMalList(ast1) && ast1.length > 0] and the head of [ast1] is
    [splice-unquote]. *)
Definition is_splice (ast1 : MalType) : bool :=
  isMalList ast1 && bool_decide (0 < length (seq_items ast1))
  && symbol_equal Symbols.SpliceUnquote (item 0 (seq_items ast1)).

(** The body of [QUASIQUOTE] once [args] is known to be [[ast]]. The inner
    function is [QUASIQUOTE(env, [new MalList(items)])]. *)
Fixpoint quasiquote (ast : MalType) : M MalType :=
  let fix quasiquote_list (items : list MalType) : M MalType :=
    match items with
    | [] => ret (quoted (MalList []))
    | ast1 :: astRest =>
        if symbol_equal Symbols.Unquote ast1 then
          checkMalInnerParameters Symbols.Unquote astRest 1 ;;
          ret (item 0 astRest)
        else if is_splice ast1 then
          let ast1Rest := drop 1 (seq_items ast1) in
          checkMalInnerParameters Symbols.SpliceUnquote ast1Rest 1 ;;
          let ast12 := item 0 ast1Rest in
          rest <- quasiquote_list astRest ;;
          ret (MalList [MalSymbol Symbols.Concat; ast12; rest])
        else
          first <- quasiquote ast1 ;;
          rest <- quasiquote_list astRest ;;
          ret (MalList [MalSymbol Symbols.Cons; first; rest])
    end
  in
  match ast with
  | MalList items => quasiquote_list items
  | _ => ret (quoted ast)
  end.

Definition QUASIQUOTE (env : nat) (args : list MalType) : M MalType :=
  checkMalInnerParameters Symbols.Quasiquote args 1 ;;
  quasiquote (item 0 args).

Definition QUOTE (env : nat) (args : list MalType) : M MalType :=
  checkMalInnerParameters Symbols.Quote args 1 ;;
  ret (item 0 args).

(** The function object behind a [MalFunction]. *)
Definition function (f : nat) : M FunctionObject :=
  λ st, match functions st !! f with
        | Some fo => Return fo st
        | None => Throw JsTypeError st
        end.

(** [new MalFunction(ast, bindings, env, fn)] *)
Definition new_MalFunction (ast bindings : MalType) (env : nat) : M MalType :=
  λ st, Return (MalFunction (length (functions st)))
          (with_functions
             (λ fs, fs ++ [{| f_ast := ast; f_params := bindings; f_env := env; isMacro := false |}])
             st).

(** [func.isMacro = true] *)
Definition set_isMacro (f : nat) : M () :=
  λ st, Return ()
          (with_functions
             (alter (λ fo, {| f_ast := f_ast fo; f_params := f_params fo; f_env := f_env fo;
                              isMacro := true |}) f)
             st).

Definition isMacroFunction (env : nat) (ast : MalType) : M bool :=
  if negb (isMalList ast) || bool_decide (length (seq_items ast) < 1) then ret false else
  let symbol := item 0 (seq_items ast) in
  if negb (isMalSymbol symbol) then ret false else
  has <- MalEnv.has env (symbol_name symbol) ;;
  if negb has then ret false else
  func <- MalEnv.get env (symbol_name symbol) ;;
  match func with
  | MalFunction f => fo <- function f ;; ret (isMacro fo)
  | _ => ret false
  end.

Section Forms.

(** [EVAL] is the evaluator that the helpers call back; [call_rec] is what
    a built-in uses to call a function it was given; [fuel] bounds the
    iterations of the loop of [MACROEXPAND]. *)
Variable EVAL : MalType → nat → M MalType.
Variable call_rec : MalType → list MalType → M MalType.
Variable fuel : nat.

(** The built-ins of [./core], which is missing: how the built-in of a
    given name acts on its arguments, given a way to call functions. *)
Variable core_call :
  (MalType → list MalType → M MalType) → string → list MalType → M MalType.

Definition EVAL_AST (ast : MalType) (env : nat) : M MalType :=
  match ast with
  | MalSymbol s => MalEnv.get env s
  | MalList items =>
      items' <- mapM (λ item, EVAL item env) items ;; ret (MalList items')
  | MalVector items =>
      items' <- mapM (λ item, EVAL item env) items ;; ret (MalVector items')
  | MalHashMap entries =>
      mapList <- mapM (λ kv, value <- EVAL kv.2 env ;; ret (kv.1, value)) entries ;;
      ret (MalHashMap mapList)
  | _ => ret ast
  end.

Definition DEF (env : nat) (args : list MalType) : M MalType :=
  checkMalInnerParameters Symbols.Def args 2 ;;
  let key := item 0 args in
  let value := item 1 args in
  checkMalTypeIsMalSymbol key ;;
  v <- EVAL value env ;;
  MalEnv.set env (symbol_name key) v.

(** The loop over [bindings.group(2)]. *)
Fixpoint LET_bindings (newEnv : nat) (items : list MalType) : M () :=
  match items with
  | key :: value :: rest =>
      checkMalTypeIsMalSymbol key ;;
      v <- EVAL value newEnv ;;
      MalEnv.set newEnv (symbol_name key) v ;;
      LET_bindings newEnv rest
  | [key] =>
      checkMalTypeIsMalSymbol key ;;
      v <- EVAL JsUndefined newEnv ;;
      MalEnv.set newEnv (symbol_name key) v ;;
      ret ()
  | [] => ret ()
  end.

Definition LET (env : nat) (args : list MalType) : M (MalType * nat) :=
  checkMalInnerParameters Symbols.Let args 2 ;;
  let bindings := item 0 args in
  let letAst := item 1 args in
  checkMalTypeIsMalSequential bindings ;;
  newEnv <- MalEnv.new (Some env) [] [] ;;
  checkMalSequentialBaseLength bindings 2 ;;
  LET_bindings newEnv (seq_items bindings) ;;
  ret (letAst, newEnv).

Definition DO (env : nat) (args : list MalType) : M MalType :=
  checkMalInnerMultipleParameters Symbols.Do args 1 ;;
  results <- EVAL_AST (MalList args) env ;;
  ret (default JsUndefined (last (seq_items results))).

Definition IF (env : nat) (args : list MalType) : M MalType :=
  let args := if bool_decide (length args = 2) then args ++ [MalNil] else args in
  checkMalInnerParameters Symbols.If args 3 ;;
  let condition := item 0 args in
  let yes := item 1 args in
  let no := item 2 args in
  result <- EVAL condition env ;;
  ret (if isPositive result then yes else no).

Definition FN (env : nat) (args : list MalType) : M MalType :=
  let funcSymbol := Symbols.Fn in
  checkMalInnerParameters funcSymbol args 2 ;;
  let bindings := item 0 args in
  let ast := item 1 args in
  checkMalBindings funcSymbol bindings ;;
  new_MalFunction ast bindings env.

Definition EVALFUNC (env : nat) (args : list MalType) : M MalType :=
  checkMalInnerParameters Symbols.Eval args 1 ;;
  let ast := item 0 args in
  EVAL ast env.

Definition DEFMACRO (env : nat) (args : list MalType) : M MalType :=
  checkMalInnerParameters Symbols.Defmacro args 2 ;;
  let key := item 0 args in
  let value := item 1 args in
  checkMalTypeIsMalSymbol key ;;
  func <- EVAL value env ;;
  checkMalTypeIsMalFunction func ;;
  match func with MalFunction f => set_isMacro f | _ => ret () end ;;
  MalEnv.set env (symbol_name key) func.

(** The closure [fn] stored in a [MalFunction]:
    [(...fnArgs) => EVAL(ast, new MalEnv(env, bindings, new MalList(fnArgs)))]. *)
Definition MalFunction_call (f : nat) (fnArgs : list MalType) : M MalType :=
  fo <- function f ;;
  newEnv <- MalEnv.new (Some (f_env fo)) (seq_items (f_params fo)) fnArgs ;;
  EVAL (f_ast fo) newEnv.

(** [func.call(...args)]: the closure of a [MalFunction], the host code of
    a [MalNativeFunction], and [MalType.call] for the other classes, which
    throws the string [`${this} is not callable`]. *)
Definition call (func : MalType) (args : list MalType) : M MalType :=
  match func with
  | MalFunction f => MalFunction_call f args
  | MalNativeFunction name => core_call call_rec name args
  | JsUndefined | JsFalse | JsNotCallable _ | JsTypeError => throw JsTypeError
  | _ => throw (JsNotCallable func)
  end.

(** The [while] loop of [MACROEXPAND]. *)
Fixpoint MACROEXPAND_loop (n : nat) (env : nat) (ast : MalType) : M MalType :=
  isMacro <- isMacroFunction env ast ;;
  if isMacro : bool then
    match n with
    | 0 => λ _, OutOfFuel
    | S n' =>
        let symbol := item 0 (seq_items ast) in
        let args := drop 1 (seq_items ast) in
        func <- MalEnv.get env (symbol_name symbol) ;;
        ast' <- call func args ;;
        MACROEXPAND_loop n' env ast'
    end
  else ret ast.

Definition MACROEXPAND (env : nat) (args : list MalType) : M MalType :=
  checkMalInnerParameters Symbols.Macroexpand args 1 ;;
  MACROEXPAND_loop fuel env (item 0 args).

Definition TRY (env : nat) (args : list MalType) : M MalType :=
  checkMalInnerParameters Symbols.Try args 2 ;;
  let ast := item 0 args in
  let catchAst := item 1 args in
  checkCatchAst catchAst ;;
  try_catch (EVAL ast env)
    (λ error,
       let errorSymbol := item 1 (seq_items catchAst) in
       let errorAst := item 2 (seq_items catchAst) in
       let bindings := [errorSymbol] in
       let exprs := [error] in
       newEnv <- MalEnv.new (Some env) bindings exprs ;;
       EVAL errorAst newEnv).

End Forms.

(** [EVAL], given [EVAL_NOT_CATCH]: an error that leaves [EVAL_NOT_CATCH]
    gets the AST pushed on its trace when it is a [MalError], and is thrown
    again. *)
Definition EVAL_with (EVAL_NOT_CATCH : MalType → nat → M MalType)
    (ast : MalType) (env : nat) : M MalType :=
  try_catch (EVAL_NOT_CATCH ast env)
    (λ error,
       if isMalError error then
         match error with MalError e => pushAst e ast | _ => ret () end ;;
         throw error
       else throw error).

Section Loop.

Variable fuel : nat.
Variable core_call :
  (MalType → list MalType → M MalType) → string → list MalType → M MalType.

(** One more round of the loop ([continue loop]) and the nested calls of
    [EVAL] both go through [EVAL_NOT_CATCH_rec]. *)
Variable EVAL_NOT_CATCH_rec : MalType → nat → M MalType.
Variable call_rec : MalType → list MalType → M MalType.

Let EVAL := EVAL_with EVAL_NOT_CATCH_rec.

(** The end of the loop body: the application of a function. *)
Definition application (ast : MalType) (env : nat) : M MalType :=
  result <- EVAL_AST EVAL ast env ;;
  checkMalTypeIsMalList result ;;
  let func := item 0 (seq_items result) in
  let params := drop 1 (seq_items result) in
  match func with
  | MalFunction f =>
      fo <- function f ;;
      env' <- MalEnv.new (Some (f_env fo)) (seq_items (f_params fo)) params ;;
      EVAL_NOT_CATCH_rec (f_ast fo) env'
  | _ => call EVAL call_rec core_call func params
  end.

(** The [switch] on the head symbol. *)
Definition special_form (ast : MalType) (env : nat) : M MalType :=
  let symbol := symbol_name (item 0 (seq_items ast)) in
  let args := drop 1 (seq_items ast) in
  if bool_decide (symbol = Symbols.Def) then DEF EVAL env args
  else if bool_decide (symbol = Symbols.Let) then
    r <- LET EVAL env args ;; EVAL_NOT_CATCH_rec r.1 r.2
  else if bool_decide (symbol = Symbols.Do) then
    ast' <- DO EVAL env args ;; EVAL_NOT_CATCH_rec ast' env
  else if bool_decide (symbol = Symbols.If) then
    ast' <- IF EVAL env args ;; EVAL_NOT_CATCH_rec ast' env
  else if bool_decide (symbol = Symbols.Fn) then FN env args
  else if bool_decide (symbol = Symbols.Eval) then
    ast' <- EVALFUNC EVAL env args ;; EVAL_NOT_CATCH_rec ast' env
  else if bool_decide (symbol = Symbols.Quote) then QUOTE env args
  else if bool_decide (symbol = Symbols.Quasiquote) then
    ast' <- QUASIQUOTE env args ;; EVAL_NOT_CATCH_rec ast' env
  else if bool_decide (symbol = Symbols.Defmacro) then DEFMACRO EVAL env args
  else if bool_decide (symbol = Symbols.Macroexpand) then
    ast' <- MACROEXPAND EVAL call_rec fuel core_call env args ;;
    EVAL_NOT_CATCH_rec ast' env
  else if bool_decide (symbol = Symbols.Try) then TRY EVAL env args
  else application ast env.

(** One round of the loop of [EVAL_NOT_CATCH]. *)
Definition EVAL_NOT_CATCH_step (ast : MalType) (env : nat) : M MalType :=
  if negb (isMalList ast) then EVAL_AST EVAL ast env else
  ast <- MACROEXPAND EVAL call_rec fuel core_call env [ast] ;;
  if negb (isMalSequential ast) then EVAL_AST EVAL ast env else
  if bool_decide (length (seq_items ast) ≤ 0)%nat then ret MalNil else
  if isMalSymbol (item 0 (seq_items ast)) then special_form ast env
  else application ast env.

End Loop.

(** The evaluator and [call] with [fuel] nested rounds and calls left. *)
Fixpoint interp
    (core_call : (MalType → list MalType → M MalType) → string → list MalType → M MalType)
    (fuel : nat)
    : (MalType → nat → M MalType) * (MalType → list MalType → M MalType) :=
  match fuel with
  | 0 => (λ _ _ _, OutOfFuel, λ _ _ _, OutOfFuel)
  | S n =>
      let r := interp core_call n in
      (EVAL_NOT_CATCH_step n core_call r.1 r.2,
       call (EVAL_with r.1) r.2 core_call)
  end.

Definition EVAL_NOT_CATCH core_call (fuel : nat) : MalType → nat → M MalType :=
  (interp core_call fuel).1.

Definition CALL core_call (fuel : nat) : MalType → list MalType → M MalType :=
  (interp core_call fuel).2.

Definition EVAL core_call (fuel : nat) : MalType → nat → M MalType :=
  EVAL_with (EVAL_NOT_CATCH core_call fuel).

(* ===================================================================== *)
(** ** Start of the program *)
(* ===================================================================== *)

(** The double quote, for the source strings that contain one. *)
Definition dq : string := String (Ascii.ascii_of_nat 34) EmptyString.

(** The four source strings given to [rep] when the module is loaded, in
    the order of the calls. *)
Definition bootstrap_not : string :=
  "(def! not (fn* [a] (if a false true)))".

Definition bootstrap_load_file : string :=
  "(def! load-file (fn* (path) (eval (read-str (str " +:+ dq +:+ "(do " +:+ dq
  +:+ " (slurp path) " +:+ dq +:+ ")" +:+ dq +:+ ")))))".

Definition bootstrap_cond : string :=
  "(defmacro! cond (fn* (& xs) (if (> (count xs) 0) (list 'if (first xs) (if (> (count xs) 1) (nth xs 1) (throw "
  +:+ dq +:+ "odd number of forms to cond" +:+ dq
  +:+ ")) (cons 'cond (rest (rest xs)))))))".

Definition bootstrap_or : string :=
  "(defmacro! or (fn* (& xs) (if (empty? xs) nil (if (= 1 (count xs)) (first xs) `(let* (or_FIXME ~(first xs)) (if or_FIXME or_FIXME (or ~@(rest xs))))))))".

Definition bootstrap : list string :=
  [bootstrap_not; bootstrap_load_file; bootstrap_cond; bootstrap_or].

(** [GlobalEnv], the first environment created. *)
Definition GlobalEnv : nat := 0.

Section Repl.

(** The table of [./core] with the action of its built-ins, the reader and
    the printer: all three files are missing. *)
Variable core : list (string * MalType).
Variable core_call :
  (MalType → list MalType → M MalType) → string → list MalType → M MalType.
Variable readString : string → M MalType.
Variable printString : MalType → M string.
Variable fuel : nat.

Definition READ (str : string) : M MalType := readString str.

Definition PRINT (exp : MalType) : M string := printString exp.

Definition rep (str : string) : M string :=
  ast <- READ str ;;
  exp <- EVAL core_call fuel ast GlobalEnv ;;
  PRINT exp.

(** [core.forEach((value, symbol) => GlobalEnv.set(symbol, value))] *)
Definition install_core : M () :=
  mapM (λ entry, MalEnv.set GlobalEnv entry.1 entry.2) core ;; ret ().

(** What loading the module does before [main()]. *)
Definition startup : M () :=
  MalEnv.new None [] [] ;;
  install_core ;;
  mapM rep bootstrap ;;
  ret ().

End Repl.

(* ===================================================================== *)
(** ** The evaluator of the tail-call step *)
(* ===================================================================== *)

Module Step5.

Section Step5Forms.

Variable EVAL : MalType → nat → M MalType.
Variable core_call :
  (MalType → list MalType → M MalType) → string → list MalType → M MalType.
Variable call_rec : MalType → list MalType → M MalType.

Definition EVAL_AST (ast : MalType) (env : nat) : M MalType :=
  match ast with
  | MalSymbol s => MalEnv.get env s
  | MalList items =>
      items' <- mapM (λ item, EVAL item env) items ;; ret (MalList items')
  | MalVector items =>
      items' <- mapM (λ item, EVAL item env) items ;; ret (MalVector items')
  | MalHashMap entries =>
      mapList <- mapM (λ kv, value <- EVAL kv.2 env ;; ret (kv.1, value)) entries ;;
      ret (MalHashMap mapList)
  | _ => ret ast
  end.

Definition DEF (env : nat) (args : list MalType) : M MalType :=
  checkMalInnerParameters Symbols.Def args 2 ;;
  let key := item 0 args in
  let value := item 1 args in
  checkMalTypeIsMalSymbol key ;;
  v <- EVAL value env ;;
  MalEnv.set env (symbol_name key) v.

Fixpoint LET_bindings (newEnv : nat) (items : list MalType) : M () :=
  match items with
  | key :: value :: rest =>
      checkMalTypeIsMalSymbol key ;;
      v <- EVAL value newEnv ;;
      MalEnv.set newEnv (symbol_name key) v ;;
      LET_bindings newEnv rest
  | [key] =>
      checkMalTypeIsMalSymbol key ;;
      v <- EVAL JsUndefined newEnv ;;
      MalEnv.set newEnv (symbol_name key) v ;;
      ret ()
  | [] => ret ()
  end.

(** Modelled from the spec: [checkMalVectorLength] is missing from the
    checker; the length of the bindings must be even (§4.4), as
    [checkMalSequentialBaseLength] checks. *)
Definition checkMalVectorLength (instance : MalType) (base : nat) : M () :=
  checkMalSequentialBaseLength instance base.

Definition LET (env : nat) (args : list MalType) : M MalType :=
  checkMalInnerParameters Symbols.Let args 2 ;;
  let bindings := item 0 args in
  let letAst := item 1 args in
  checkMalTypeIsMalVector bindings ;;
  newEnv <- MalEnv.new (Some env) [] [] ;;
  checkMalVectorLength bindings 2 ;;
  LET_bindings newEnv (seq_items bindings) ;;
  EVAL letAst newEnv.

Definition DO (env : nat) (args : list MalType) : M MalType :=
  checkMalInnerMultipleParameters Symbols.Do args 1 ;;
  results <- mapM (λ arg, EVAL arg env) args ;;
  ret (default JsUndefined (last results)).

Definition IF (env : nat) (args : list MalType) : M MalType :=
  let args := if bool_decide (length args = 2) then args ++ [MalNil] else args in
  checkMalInnerParameters Symbols.If args 3 ;;
  let condition := item 0 args in
  let yes := item 1 args in
  let no := item 2 args in
  result <- EVAL condition env ;;
  if isPositive result then EVAL yes env else EVAL no env.

(** [params], an array of symbols, is kept as the items of a vector. *)
Definition FN (env : nat) (args : list MalType) : M MalType :=
  checkMalInnerParameters Symbols.If args 2 ;;
  let symbols := item 0 args in
  let ast := item 1 args in
  checkMalTypeIsMalVector symbols ;;
  mapM checkMalTypeIsMalSymbol (seq_items symbols) ;;
  let params := MalVector (seq_items symbols) in
  new_MalFunction ast params env.

(** The closure [fn]:
    [(...fnArgs) => EVAL(ast, new MalEnv(env, params, fnArgs))]. *)
Definition MalFunction_call (f : nat) (fnArgs : list MalType) : M MalType :=
  fo <- function f ;;
  newEnv <- MalEnv.new (Some (f_env fo)) (seq_items (f_params fo)) fnArgs ;;
  EVAL (f_ast fo) newEnv.

Definition call (func : MalType) (args : list MalType) : M MalType :=
  match func with
  | MalFunction f => MalFunction_call f args
  | MalNativeFunction name => core_call call_rec name args
  | JsUndefined | JsFalse | JsNotCallable _ | JsTypeError => throw JsTypeError
  | _ => throw (JsNotCallable func)
  end.

(** The [default] case of the [switch]. *)
Definition application (ast : MalType) (env : nat) : M MalType :=
  result <- EVAL_AST ast env ;;
  checkMalTypeIsMalList result ;;
  let func := item 0 (seq_items result) in
  let args := drop 1 (seq_items result) in
  match func with
  | MalFunction f =>
      fo <- function f ;;
      env' <- MalEnv.new (Some (f_env fo)) (seq_items (f_params fo)) args ;;
      EVAL (f_ast fo) env'
  | _ => call func args
  end.

(** One round of the loop of [EVAL]; [continue loop] is [EVAL] again. *)
Definition EVAL_step (ast : MalType) (env : nat) : M MalType :=
  if negb (isMalList ast) then EVAL_AST ast env else
  if bool_decide (length (seq_items ast) ≤ 0)%nat then ret MalNil else
  let symbol := item 0 (seq_items ast) in
  let args := drop 1 (seq_items ast) in
  checkMalTypeIsMalSymbol symbol ;;
  let name := symbol_name symbol in
  if bool_decide (name = Symbols.Def) then DEF env args
  else if bool_decide (name = Symbols.Let) then
    ast' <- LET env args ;; EVAL ast' env
  else if bool_decide (name = Symbols.Do) then
    ast' <- DO env args ;; EVAL ast' env
  else if bool_decide (name = Symbols.If) then
    ast' <- IF env args ;; EVAL ast' env
  else if bool_decide (name = Symbols.Fn) then FN env args
  else application ast env.

End Step5Forms.

Fixpoint interp
    (core_call : (MalType → list MalType → M MalType) → string → list MalType → M MalType)
    (fuel : nat)
    : (MalType → nat → M MalType) * (MalType → list MalType → M MalType) :=
  match fuel with
  | 0 => (λ _ _ _, OutOfFuel, λ _ _ _, OutOfFuel)
  | S n =>
      let r := interp core_call n in
      (EVAL_step r.1 core_call r.2, call r.1 core_call r.2)
  end.

Definition EVAL core_call (fuel : nat) : MalType → nat → M MalType :=
  (interp core_call fuel).1.

End Step5.

(* ===================================================================== *)
(** ** Definitions used by the statements *)
(* ===================================================================== *)

(** The source text of [load-file] with [read-string] and a [do] form that
    ends in [nil]; [\n] is the escape of the Mal string literal. *)
Definition load_file_with_nil : string :=
  "(def! load-file (fn* (path) (eval (read-string (str " +:+ dq +:+ "(do " +:+ dq
  +:+ " (slurp path) " +:+ dq +:+ "\nnil)" +:+ dq +:+ ")))))".

(** The number of nested Lists and elements of a term. *)
Fixpoint size (t : MalType) : nat :=
  match t with
  | MalList items =>
      S ((fix sizes (l : list MalType) : nat :=
            match l with
            | [] => 0
            | x :: l' => size x + sizes l'
            end) items)
  | _ => 1
  end.

(** What [try*] does once its body has thrown [error], when the catch
    symbol is bound to [bound]: a child of the environment of the [try*]
    is created with that one binding and the handler is evaluated there. *)
Definition catch_with (EVAL : MalType → nat → M MalType) (env : nat)
    (name : string) (body bound : MalType) : M MalType :=
  λ st, EVAL body (length (envs st))
          (with_envs (λ es, es ++ [{| outer := Some env; data := {[ name := bound ]} |}]) st).

(** [(eval x)], evaluated in [env], evaluates [x] in [env] and goes on with
    the resulting term in the environment [resume]. *)
Definition eval_form_resumes_in core_call (fuel : nat) (resume env : nat)
    (x : MalType) (st : State) : Prop :=
  EVAL_NOT_CATCH core_call (S fuel) (MalList [MalSymbol Symbols.Eval; x]) env st
  = (t <- EVAL core_call fuel x env ;; EVAL_NOT_CATCH core_call fuel t resume) st.

(** [frames] nested activations of [EVAL], outermost first, around a
    computation [body]: the [EVAL_NOT_CATCH] of each activation ends with
    the outcome of the activation inside it. *)
Fixpoint nested_EVAL (frames : list (MalType * nat)) (body : M MalType) : M MalType :=
  match frames with
  | [] => body
  | (ast, env) :: inner => EVAL_with (λ _ _, nested_EVAL inner body) ast env
  end.

(** Modelled from the spec: [./core] is missing. Two of the built-ins that
    §4.5 lists: [throw], which throws an Error that wraps its argument (§3,
    §7), and [list]. *)
Definition core_spec (call_rec : MalType → list MalType → M MalType)
    (name : string) (args : list MalType) : M MalType :=
  if bool_decide (name = "throw") then throw_new (UserThrow (item 0 args))
  else if bool_decide (name = "list") then ret (MalList args)
  else throw JsTypeError.

(** A state with the global environment alone, holding these built-ins. *)
Definition initial_state : State :=
  {| envs := [{| outer := None;
                 data := <["throw" := MalNativeFunction "throw"]>
                           (<["list" := MalNativeFunction "list"]> ∅) |}];
     functions := []; errors := []; atoms := [] |}.

(** A List and a Vector with the same single element, a number. *)
Definition list_and_vector : Types.Heap :=
  [ Types.Instance Types.CMalNumber (Types.JsNumber 1);
    Types.JsArray [Types.JsObject 0]; Types.Instance Types.CMalList (Types.JsObject 1);
    Types.JsArray [Types.JsObject 0]; Types.Instance Types.CMalVector (Types.JsObject 3) ].

(** [new MalList(null)], [new MalList("ab")] and [new MalList(5)]. *)
Definition odd_lists : Types.Heap :=
  [ Types.Instance Types.CMalList Types.JsNull;
    Types.Instance Types.CMalList (Types.JsString "ab");
    Types.Instance Types.CMalList (Types.JsNumber 5) ].

(** An empty Vector. *)
Definition empty_vector : Types.Heap := [ Types.JsArray []; Types.Instance Types.CMalVector (Types.JsObject 0) ].

(** An empty List and a List of one number. *)
Definition two_lists : Types.Heap :=
  [ Types.JsArray []; Types.Instance Types.CMalList (Types.JsObject 0);
    Types.Instance Types.CMalNumber (Types.JsNumber 7);
    Types.JsArray [Types.JsObject 2]; Types.Instance Types.CMalList (Types.JsObject 3) ].

(** The value returned, and the kind of the Error thrown, by a run. *)
Definition returned {A} (r : Result A) : option A :=
  match r with Return a _ => Some a | _ => None end.

Definition thrown_kind {A} (r : Result A) : option ErrorKind :=
  match r with
  | Throw (MalError e) st => kind <$> errors st !! e
  | _ => None
  end.

(** A second input given to the read-eval-print loop after a first one. *)
Definition then_run {A B} (r : Result A) (m : M B) : Result B :=
  match r with
  | Return _ st => m st
  | Throw e st => Throw e st
  | OutOfFuel => OutOfFuel
  end.

(** A state with an empty global environment. *)
Definition empty_state : State :=
  {| envs := [{| outer := None; data := ∅ |}];
     functions := []; errors := []; atoms := [] |}.

(** [(def! f (fn* [& xs] (if true xs)))] and [(f 1 2)] *)
Definition def_rest_function : MalType :=
  MalList [MalSymbol "def!"; MalSymbol "f";
           MalList [MalSymbol "fn*"; MalVector [MalSymbol "&"; MalSymbol "xs"];
                    MalList [MalSymbol "if"; MalBoolean true; MalSymbol "xs"]]].

Definition call_rest_function : MalType :=
  MalList [MalSymbol "f"; MalNumber 1; MalNumber 2].

(** [(if true (list 1 2))] *)
Definition if_true_list : MalType :=
  MalList [MalSymbol "if"; MalBoolean true;
           MalList [MalSymbol "list"; MalNumber 1; MalNumber 2]].

(** The state inside [(let* (x 7) ...)] at top level: the global
    environment and its child, which binds [x]. *)
Definition let_x_state : State :=
  {| envs := [{| outer := None; data := ∅ |};
              {| outer := Some GlobalEnv; data := {[ "x" := MalNumber 7 ]} |}];
     functions := []; errors := []; atoms := [] |}.

(** The state after [(defmacro! m (fn* (a) a))]. *)
Definition macro_state : State :=
  {| envs := [{| outer := None; data := {[ "m" := MalFunction 0 ]} |}];
     functions := [{| f_ast := MalSymbol "a"; f_params := MalList [MalSymbol "a"];
                      f_env := GlobalEnv; isMacro := true |}];
     errors := []; atoms := [] |}.

(** [(throw 5)], [(do (throw 5))] and [(def! a (do (throw 5)))] *)
Definition throw_5 : MalType := MalList [MalSymbol "throw"; MalNumber 5].

Definition do_throw_5 : MalType := MalList [MalSymbol "do"; throw_5].

Definition def_do_throw_5 : MalType :=
  MalList [MalSymbol "def!"; MalSymbol "a"; do_throw_5].

(** [(catch* e e)] *)
Definition catch_e : MalType :=
  MalList [MalSymbol Symbols.Catch; MalSymbol "e"; MalSymbol "e"].

(** The activations of [EVAL] around [(throw 5)] in
    [(def! a (do (throw 5)))], outermost first. *)
Definition unwinding_frames : list (MalType * nat) :=
  [(def_do_throw_5, GlobalEnv); (do_throw_5, GlobalEnv)].

(** [(def! 1)] *)
Definition def_1 : MalType := MalList [MalSymbol "def!"; MalNumber 1].

(** Every Error of [st] is still in [st'], with its kind, and its trace
    in [st'] starts with its trace in [st]. *)
Definition traces_extended (st st' : State) : Prop :=
  ∀ e o, errors st !! e = Some o →
    ∃ o', errors st' !! e = Some o' ∧ kind o' = kind o ∧ asts o `prefix_of` asts o'.

(** A computation that, whenever it ends, leaves the traces extended. *)
Definition append_only {A} (m : M A) : Prop :=
  ∀ st, match m st with
        | Return _ st' | Throw _ st' => traces_extended st st'
        | OutOfFuel => True
        end.

(** A state in which an Error of [(throw 5)] was caught earlier. *)
Definition caught_state : State :=
  {| envs := envs initial_state; functions := [];
     errors := [{| kind := UserThrow (MalNumber 5); asts := [throw_5] |}];
     atoms := [] |}.

(** A term without symbols and Lists outside the keys of its HashMaps:
    numbers, strings, keywords, booleans, nil, functions, atoms, errors
    and host values, and the Vectors and HashMaps built from them. *)
Fixpoint is_data (t : MalType) : bool :=
  match t with
  | MalSymbol _ | MalList _ => false
  | MalVector items => forallb is_data items
  | MalHashMap entries =>
      forallb (λ kv, match kv with (_, v) => is_data v end) entries
  | _ => true
  end.

(** The nesting depth of the Vectors and HashMaps of a term. *)
Fixpoint depth (t : MalType) : nat :=
  match t with
  | MalVector items => S (foldr (λ x d, depth x `max` d) 0 items)
  | MalHashMap entries =>
      S (foldr (λ kv d, match kv with (_, v) => depth v end `max` d) 0 entries)
  | _ => 1
  end.

(** A nested Vector and HashMap of data. *)
Definition data_example : MalType :=
  MalVector [MalNumber 1;
             MalHashMap [(MalKeyword "k", MalVector [MalString "s"; MalNil])]].

(** The state after [(def! f (fn* (a) a))]. *)
Definition function_state : State :=
  {| envs := [{| outer := None; data := {[ "f" := MalFunction 0 ]} |}];
     functions := [{| f_ast := MalSymbol "a"; f_params := MalList [MalSymbol "a"];
                      f_env := GlobalEnv; isMacro := false |}];
     errors := []; atoms := [] |}.

(** What a check of the checker does, given the outcome of its test:
    nothing, or it throws [MalUnexpectedTokenType] for the instance. *)
Definition check_outcome (test : bool) (instance : MalType) (excepted : list Class)
    (st : State) : Result () :=
  if test then Return () st
  else throw_new (MalUnexpectedTokenType instance excepted) st.

(** Every binding is a symbol, and [&] only stands at the last index but
    one of a parameter list of length [len]. *)
Definition well_formed_bindings (items : list MalType) (len : nat) : Prop :=
  Forall (λ b, isMalSymbol b = true) items
  ∧ ∀ i, items !! i = Some (MalSymbol "&") → i + 2 = len.

(** A run that either returns without touching the state or throws the
    arity Error of [unquote] or [splice-unquote]. *)
Definition pure_or_unquote_arity (m : M MalType) (st : State) : Prop :=
  (∃ r, m st = Return r st)
  ∨ (∃ symbol n,
       (symbol = Symbols.Unquote ∨ symbol = Symbols.SpliceUnquote) ∧ n ≠ 1
       ∧ m st = throw_new (MalParametersError symbol n 1) st).

(** The symbols that have a [case] in the [switch] of [EVAL_NOT_CATCH]. *)
Definition special_symbols : list string :=
  [Symbols.Def; Symbols.Let; Symbols.Do; Symbols.If; Symbols.Fn; Symbols.Eval;
   Symbols.Quote; Symbols.Quasiquote; Symbols.Defmacro; Symbols.Macroexpand;
   Symbols.Try].

(** Three numbers, the first two with the same value. *)
Definition three_numbers : Types.Heap :=
  [ Types.Instance Types.CMalNumber (Types.JsNumber 7);
    Types.Instance Types.CMalNumber (Types.JsNumber 7);
    Types.Instance Types.CMalNumber (Types.JsNumber 8) ].

(** A List of the three numbers. *)
Definition list_of_three : Types.Heap :=
  three_numbers
  ++ [ Types.JsArray [Types.JsObject 0; Types.JsObject 1; Types.JsObject 2];
       Types.Instance Types.CMalList (Types.JsObject 3) ].

(** [(5 1)], [(try* 1 2)], [(do (quote (1 2)))] and [((fn* [x] x) 1)] *)
Definition call_5 : MalType := MalList [MalNumber 5; MalNumber 1].

Definition malformed_try : MalType :=
  MalList [MalSymbol Symbols.Try; MalNumber 1; MalNumber 2].

Definition do_quote_list : MalType :=
  MalList [MalSymbol Symbols.Do; quoted (MalList [MalNumber 1; MalNumber 2])].

Definition call_fn : MalType :=
  MalList [MalList [MalSymbol Symbols.Fn; MalVector [MalSymbol "x"]; MalSymbol "x"];
           MalNumber 1].

(** The state inside [(let* (x 7) ...)] after [(def! f (fn* (a) a))] at
    top level. *)
Definition closure_state : State :=
  {| envs := [{| outer := None; data := {[ "f" := MalFunction 0 ]} |};
              {| outer := Some GlobalEnv; data := {[ "x" := MalNumber 7 ]} |}];
     functions := [{| f_ast := MalSymbol "a"; f_params := MalList [MalSymbol "a"];
                      f_env := GlobalEnv; isMacro := false |}];
     errors := []; atoms := [] |}.

(* ===================================================================== *)
(** ** Properties of types.ts *)
(* ===================================================================== *)

Section TypesFacts.

Import Types.

Lemma instance_inj h a c1 v1 c2 v2 :
  instance h a = Some (c1, v1) → instance h a = Some (c2, v2) → c1 = c2 ∧ v1 = v2.
Proof. intros H1 H2. rewrite H1 in H2. by inversion H2. Qed.

Lemma index_array_in_range (items : list JsValue) (i : Z) (v : JsValue) :
  (0 ≤ i < Z.of_nat (length items))%Z →
  items !! Z.to_nat i = Some v → index_array items i = v.
Proof.
  intros [Hlo _] Hv. unfold index_array.
  rewrite bool_decide_eq_true_2 by done. by rewrite Hv.
Qed.

Lemma index_array_out_of_range (items : list JsValue) (i : Z) :
  ¬ (0 ≤ i < Z.of_nat (length items))%Z → index_array items i = JsUndefined.
Proof.
  intros Hout. unfold index_array. case_bool_decide as Hlo; [|done].
  rewrite (lookup_ge_None_2 items (Z.to_nat i)); [done|]. lia.
Qed.

Lemma is_instance_truthy h v : is_instance h v → truthy v = true.
Proof. by destruct v. Qed.

(** On a [value] that is an array, [value[index]] is the array's element. *)
Lemma property_at_array h value items (i : Z) :
  array h value = Some items → property_at h value i = Some (index_array items i).
Proof.
  destruct value as [| | | | |a]; try done. simpl.
  destruct (h !! a) as [[| |]|]; try done. by intros [= ->].
Qed.

(** C3, as stated, fails: a List and a Vector whose only element is the
    same number object have pairwise equal elements, and [equal] answers
    false. *)
Lemma equal_list_vector_counterexample :
  sequence list_and_vector CMalList 2 [JsObject 0]
  ∧ sequence list_and_vector CMalVector 4 [JsObject 0]
  ∧ pairwise_equal list_and_vector [JsObject 0] [JsObject 0]
  ∧ equal list_and_vector 2 4 = Some false.
Proof.
  repeat split.
  - exists (JsObject 1). repeat split; [done..|].
    constructor; [by eexists|constructor].
  - exists (JsObject 3). repeat split; [done..|].
    constructor; [by eexists|constructor].
  - constructor; [|constructor]. by exists 0, 0.
Qed.

(** C3, amended: [equal] holds exactly when the two objects are the same
    or have the same class name and [===] values (for two sequentials: the
    same array object); a List and a Vector are therefore never [equal],
    whatever their elements. *)
Theorem equal_is_identity_or_same_class_and_value h a b ca va cb vb :
  instance h a = Some (ca, va) →
  instance h b = Some (cb, vb) →
  equal h a b = Some (bool_decide (a = b) || bool_decide (ca = cb) && strict_equal va vb)
  ∧ (ca = CMalList → cb = CMalVector → equal h a b = Some false).
Proof.
  intros Ha Hb. unfold equal. rewrite Ha, Hb. simpl. split; [done|].
  intros -> ->. unfold valueEqual. simpl.
  rewrite bool_decide_eq_false_2; [done|].
  intros ->. by destruct (instance_inj _ _ _ _ _ _ Ha Hb).
Qed.

Lemma equal_is_identity_or_same_class_and_value_witness :
  equal list_and_vector 2 4
  = Some (bool_decide (2 = 4) || bool_decide (CMalList = CMalVector)
          && strict_equal (JsObject 1) (JsObject 3))
  ∧ (CMalList = CMalList → CMalVector = CMalVector → equal list_and_vector 2 4 = Some false).
Proof.
  apply (equal_is_identity_or_same_class_and_value list_and_vector 2 4
           CMalList (JsObject 1) CMalVector (JsObject 3)); reflexivity.
Defined.

(** [MalVector] declares no [get] and no [first]: through a reference
    that is not typed, the call is a [TypeError] of the host. *)
Lemma MalVector_declares_no_get :
  sequence empty_vector CMalVector 1 []
  ∧ get empty_vector 1 0 = TypeError
  ∧ first empty_vector 1 = TypeError.
Proof.
  repeat split. exists (JsObject 0). repeat split; [done..|constructor].
Qed.

(** C9, as stated, fails for a List: the constructor takes any value, and
    on [new MalList(null)] both [get(0)] and [first()] throw the host's
    [TypeError]; on [new MalList("ab")], [get(0)] returns the string ["a"],
    which is no Term. A List whose value is a number indexes to a new
    [MalUndefined]. *)
Lemma get_null_list_counterexample :
  instance odd_lists 0 = Some (CMalList, JsNull)
  ∧ get odd_lists 0 0 = TypeError
  ∧ first odd_lists 0 = TypeError
  ∧ instance odd_lists 1 = Some (CMalList, JsString "ab")
  ∧ get odd_lists 1 0 = Returns (JsString "a") odd_lists
  ∧ ¬ is_instance odd_lists (JsString "a")
  ∧ instance odd_lists 2 = Some (CMalList, JsNumber 5)
  ∧ get odd_lists 2 0
    = Returns (JsObject 3) (odd_lists ++ [Instance CMalUndefined JsUndefined]).
Proof. repeat split; try reflexivity. intros []. Qed.

(** C9, amended: for every List [s] whose value is an array of Terms and
    every index [i], [s.get(i)] returns an instance and never throws: the
    element at [i] when [i] is in range, with the heap unchanged, and a
    new [MalUndefined] otherwise; [first()] on an empty List returns a new
    [MalUndefined]. *)
Theorem get_is_total h s items (i : Z) :
  sequence h CMalList s items →
  (∃ r h', get h s i = Returns (JsObject r) h'
           ∧ instance h' r ≠ None
           ∧ ((0 ≤ i < Z.of_nat (length items))%Z →
              items !! Z.to_nat i = Some (JsObject r) ∧ h' = h)
           ∧ (¬ (0 ≤ i < Z.of_nat (length items))%Z →
              r = length h ∧ h' = h ++ [Instance CMalUndefined JsUndefined]))
  ∧ (items = [] →
     first h s = Returns (JsObject (length h)) (h ++ [Instance CMalUndefined JsUndefined])).
Proof.
  intros (value & Hs & Harr & Hall).
  assert (Hfresh : instance (h ++ [Instance CMalUndefined JsUndefined]) (length h)
                   = Some (CMalUndefined, JsUndefined)).
  { unfold instance. by rewrite lookup_app_r, Nat.sub_diag by lia. }
  split.
  - unfold get. rewrite Hs. simpl. rewrite (property_at_array _ _ _ i Harr).
    destruct (decide (0 ≤ i < Z.of_nat (length items))%Z) as [Hin|Hout].
    + destruct (lookup_lt_is_Some_2 items (Z.to_nat i)) as [v Hv]; [lia|].
      rewrite (index_array_in_range _ _ _ Hin Hv).
      assert (Hinst : is_instance h v).
      { eapply Forall_lookup_1; eauto. }
      rewrite (is_instance_truthy _ _ Hinst).
      destruct v as [| | | | |r]; try done.
      exists r, h. repeat split; try done.
      * destruct Hinst as [o Ho]. by rewrite Ho.
    + rewrite (index_array_out_of_range _ _ Hout). simpl.
      exists (length h), (h ++ [Instance CMalUndefined JsUndefined]).
      repeat split; try done. by rewrite Hfresh.
  - intros ->. unfold first, get. rewrite Hs. simpl.
    by rewrite (property_at_array _ _ _ 0%Z Harr).
Qed.

Lemma get_is_total_witness :
  (∃ r h', get two_lists 4 5 = Returns (JsObject r) h'
           ∧ instance h' r ≠ None
           ∧ ((0 ≤ 5 < Z.of_nat (length [JsObject 2]))%Z →
              [JsObject 2] !! Z.to_nat 5 = Some (JsObject r) ∧ h' = two_lists)
           ∧ (¬ (0 ≤ 5 < Z.of_nat (length [JsObject 2]))%Z →
              r = length two_lists
              ∧ h' = two_lists ++ [Instance CMalUndefined JsUndefined]))
  ∧ ([JsObject 2] = [] →
     first two_lists 4
     = Returns (JsObject (length two_lists))
         (two_lists ++ [Instance CMalUndefined JsUndefined])).
Proof.
  apply (get_is_total two_lists 4 [JsObject 2] 5).
  exists (JsObject 3). repeat split; [reflexivity..|].
  constructor; [by eexists|constructor].
Defined.

End TypesFacts.

(* ===================================================================== *)
(** ** Properties of the start of the program *)
(* ===================================================================== *)

(** C4, as stated, fails: the second source string is not the one with
    [read-string] and a final [nil]. *)
Lemma load_file_counterexample :
  bootstrap !! 1 = Some bootstrap_load_file
  ∧ bootstrap_load_file ≠ load_file_with_nil.
Proof.
  split; [reflexivity|].
  intros H. apply (f_equal String.length) in H. vm_compute in H. discriminate.
Qed.

(** C4, amended: loading the module creates the global environment,
    installs the built-ins, and then evaluates four source strings in
    order; the second one defines [load-file] through [read-str] and wraps
    the contents of the file in [(do ...)], with nothing after them. *)
Theorem startup_evaluates_bootstrap core core_call readString printString fuel st :
  bootstrap_load_file
  = "(def! load-file (fn* (path) (eval (read-str (str " +:+ dq +:+ "(do " +:+ dq
    +:+ " (slurp path) " +:+ dq +:+ ")" +:+ dq +:+ ")))))"
  ∧ startup core core_call readString printString fuel st
    = (MalEnv.new None [] [] ;;
       install_core core ;;
       rep core_call readString printString fuel bootstrap_not ;;
       rep core_call readString printString fuel bootstrap_load_file ;;
       rep core_call readString printString fuel bootstrap_cond ;;
       rep core_call readString printString fuel bootstrap_or ;;
       ret ()) st.
Proof.
  split; [reflexivity|].
  unfold startup, bootstrap, bind. simpl.
  destruct (install_core core _); try reflexivity.
  unfold bind.
  repeat (match goal with
          | |- context [rep ?c ?r ?p ?f ?s ?st] => destruct (rep c r p f s st); try reflexivity
          end).
Qed.

(* ===================================================================== *)
(** ** Properties of the checks and of the environment *)
(* ===================================================================== *)

Lemma checkMalInnerParameters_ok symbol parameters n st :
  length parameters = n → checkMalInnerParameters symbol parameters n st = Return () st.
Proof.
  intros H. unfold checkMalInnerParameters.
  by rewrite bool_decide_eq_false_2 by (intros ?; congruence).
Qed.

(** The frame that [find] returns binds the symbol. *)
Lemma find_from_bound n st e sym e' :
  MalEnv.find_from n st e sym = Some e' →
  ∃ fr v, envs st !! e' = Some fr ∧ data fr !! sym = Some v.
Proof.
  revert e. induction n as [|n IH]; intros e; simpl; [done|].
  destruct (envs st !! e) as [fr|] eqn:Hfr; [|done].
  destruct (data fr !! sym) as [v|] eqn:Hv.
  - intros [= <-]. eauto.
  - destruct (outer fr); [apply IH|done].
Qed.

(** After [has] has answered true, [get] finds a term. *)
Lemma has_true_lookup e sym st :
  MalEnv.find st e sym ≠ None → ∃ v, MalEnv.lookup st e sym = Some v.
Proof.
  unfold MalEnv.lookup, MalEnv.find.
  destruct (MalEnv.find_from _ st e sym) as [e'|] eqn:Hf; [|done].
  intros _. destruct (find_from_bound _ _ _ _ _ Hf) as (fr & v & Hfr & Hv).
  exists v. simpl. rewrite Hfr. simpl. done.
Qed.

(** [isMacroFunction] only reads the state. *)
Lemma isMacroFunction_state env ast st b st' :
  isMacroFunction env ast st = Return b st' → st' = st.
Proof.
  unfold isMacroFunction.
  destruct (negb (isMalList ast) || _); [by intros [= _ <-]|].
  destruct (negb (isMalSymbol _)); [by intros [= _ <-]|].
  unfold bind, MalEnv.has.
  destruct (negb _); [by intros [= _ <-]|].
  unfold MalEnv.get. destruct (MalEnv.lookup _ _ _) as [v|]; [|done].
  destruct v; try (by intros [= _ <-]).
  unfold function. destruct (functions st !! f); [|done]. by intros [= _ <-].
Qed.

(** [isMacroFunction] never throws an Error: [env.get] is only reached
    after [env.has], and then it succeeds. *)
Lemma isMacroFunction_no_Error env ast st :
  (∃ b, isMacroFunction env ast st = Return b st)
  ∨ isMacroFunction env ast st = Throw JsTypeError st.
Proof.
  unfold isMacroFunction.
  destruct (negb (isMalList ast) || _); [by left; eexists|].
  destruct (negb (isMalSymbol _)); [by left; eexists|].
  unfold bind, MalEnv.has.
  case_bool_decide as Hf; simpl; [|by left; eexists].
  unfold MalEnv.get.
  destruct (has_true_lookup env (symbol_name (item 0 (seq_items ast))) st) as [v Hv].
  { by destruct Hf as [x ->]. }
  rewrite Hv. destruct v; try (by left; eexists).
  unfold function. destruct (functions st !! f); [by left; eexists|by right].
Qed.

(* ===================================================================== *)
(** ** Properties of macro expansion *)
(* ===================================================================== *)

Section MacroFacts.

Variable EVAL : MalType → nat → M MalType.
Variable call_rec : MalType → list MalType → M MalType.
Variable fuel : nat.
Variable core_call :
  (MalType → list MalType → M MalType) → string → list MalType → M MalType.

Lemma MACROEXPAND_unfold env ast st :
  MACROEXPAND EVAL call_rec fuel core_call env [ast] st
  = MACROEXPAND_loop EVAL call_rec core_call fuel env ast st.
Proof. reflexivity. Qed.

(** The loop stops at once on a form that is no macro call, whatever the
    number of rounds it is allowed. *)
Lemma MACROEXPAND_loop_not_macro n env ast st :
  isMacroFunction env ast st = Return false st →
  MACROEXPAND_loop EVAL call_rec core_call n env ast st = Return ast st.
Proof. intros H. destruct n; simpl; unfold bind; by rewrite H. Qed.

(** The loop only returns a form on which its test has just failed. *)
Lemma MACROEXPAND_loop_result n env ast st ast' st' :
  MACROEXPAND_loop EVAL call_rec core_call n env ast st = Return ast' st' →
  isMacroFunction env ast' st' = Return false st'.
Proof.
  revert ast st. induction n as [|n IH]; intros ast st; simpl; unfold bind at 1;
    destruct (isMacroFunction env ast st) as [b st1| |] eqn:Hm; try done;
    pose proof (isMacroFunction_state _ _ _ _ _ Hm) as ->; destruct b; try done.
  - by intros [= <- <-].
  - unfold bind.
    destruct (MalEnv.get _ _ _) as [func st2| |]; try done.
    destruct (call _ _ _ _ _ _) as [ast2 st3| |]; try done.
    apply IH.
  - by intros [= <- <-].
Qed.

(** C8: expanding the result of [MACROEXPAND] again, in the state the
    first expansion left, has the outcome of the first expansion alone;
    and a form that [MACROEXPAND] returns is no macro call: not a
    non-empty List whose head symbol is bound to a function marked
    [isMacro]. *)
Theorem MACROEXPAND_idempotent env ast st :
  (ast' <- MACROEXPAND EVAL call_rec fuel core_call env [ast] ;;
   MACROEXPAND EVAL call_rec fuel core_call env [ast']) st
  = MACROEXPAND EVAL call_rec fuel core_call env [ast] st
  ∧ ∀ ast' st',
      MACROEXPAND EVAL call_rec fuel core_call env [ast] st = Return ast' st' →
      isMacroFunction env ast' st' = Return false st'.
Proof.
  split.
  - unfold bind at 1.
    destruct (MACROEXPAND _ _ _ _ env [ast] st) as [ast' st'| |] eqn:H; try done.
    rewrite MACROEXPAND_unfold in *.
    apply MACROEXPAND_loop_not_macro. by eapply MACROEXPAND_loop_result.
  - intros ast' st'. rewrite MACROEXPAND_unfold. apply MACROEXPAND_loop_result.
Qed.

(** C10: a non-empty List whose head symbol is not bound, or is bound to a
    value that is no function, or to a function whose [isMacro] is false,
    is returned unchanged by [MACROEXPAND], in an unchanged state and with
    no Error: the test of the loop answers false. *)
Theorem MACROEXPAND_leaves_non_macro_call env s rest st :
  let ast := MalList (MalSymbol s :: rest) in
  (MalEnv.find st env s = None
   ∨ ∃ v, MalEnv.lookup st env s = Some v
          ∧ (isMalFunction v = false
             ∨ ∃ f fo, v = MalFunction f ∧ functions st !! f = Some fo
                       ∧ isMacro fo = false)) →
  isMacroFunction env ast st = Return false st
  ∧ MACROEXPAND EVAL call_rec fuel core_call env [ast] st = Return ast st.
Proof.
  intros ast H.
  assert (Hm : isMacroFunction env ast st = Return false st).
  { unfold isMacroFunction, ast. simpl. unfold bind, MalEnv.has.
    destruct H as [Hnone|(v & Hv & Hcase)].
    - rewrite Hnone. rewrite bool_decide_eq_false_2; [done|]. by intros [? ?].
    - case_bool_decide; [|done]. simpl. unfold MalEnv.get. rewrite Hv.
      destruct Hcase as [Hnf|(f & fo & -> & Hfo & Hflag)].
      + by destruct v.
      + unfold function. rewrite Hfo. by rewrite <- Hflag. }
  split; [done|]. rewrite MACROEXPAND_unfold. by apply MACROEXPAND_loop_not_macro.
Qed.

End MacroFacts.

(** C8 at work: [(m (quote 7))], with [m] the macro [(fn* (a) a)], expands
    to [(quote 7)], which is no macro call. *)
Lemma MACROEXPAND_idempotent_witness :
  ∃ st',
    MACROEXPAND (EVAL core_spec 3) (CALL core_spec 3) 3 core_spec GlobalEnv
      [MalList [MalSymbol "m"; quoted (MalNumber 7)]] macro_state
    = Return (quoted (MalNumber 7)) st'
    ∧ isMacroFunction GlobalEnv (quoted (MalNumber 7)) st' = Return false st'.
Proof.
  eexists. split; [vm_compute; reflexivity|].
  apply (proj2 (MACROEXPAND_idempotent (EVAL core_spec 3) (CALL core_spec 3) 3 core_spec
                  GlobalEnv (MalList [MalSymbol "m"; quoted (MalNumber 7)]) macro_state)).
  vm_compute. reflexivity.
Defined.

(** C10 at work: [foo] is not bound in the global environment. *)
Lemma MACROEXPAND_leaves_non_macro_call_witness :
  isMacroFunction GlobalEnv (MalList [MalSymbol "foo"; MalNumber 1]) initial_state
  = Return false initial_state
  ∧ MACROEXPAND (EVAL core_spec 3) (CALL core_spec 3) 3 core_spec GlobalEnv
      [MalList [MalSymbol "foo"; MalNumber 1]] initial_state
    = Return (MalList [MalSymbol "foo"; MalNumber 1]) initial_state.
Proof.
  apply (MACROEXPAND_leaves_non_macro_call (EVAL core_spec 3) (CALL core_spec 3) 3 core_spec
           GlobalEnv "foo" [MalNumber 1] initial_state).
  left. vm_compute. reflexivity.
Defined.

(* ===================================================================== *)
(** ** Properties of the loop and of the special forms *)
(* ===================================================================== *)

Lemma EVAL_NOT_CATCH_S core_call n :
  EVAL_NOT_CATCH core_call (S n)
  = EVAL_NOT_CATCH_step n core_call (EVAL_NOT_CATCH core_call n) (CALL core_call n).
Proof. reflexivity. Qed.

(** A List with a symbol at its head that is no macro call reaches the
    [switch] as it is. *)
Lemma EVAL_NOT_CATCH_special_form core_call n ast env st :
  isMalList ast = true →
  isMalSymbol (item 0 (seq_items ast)) = true →
  isMacroFunction env ast st = Return false st →
  EVAL_NOT_CATCH core_call (S n) ast env st
  = special_form n core_call (EVAL_NOT_CATCH core_call n) (CALL core_call n) ast env st.
Proof.
  intros Hlist Hsym Hm. rewrite EVAL_NOT_CATCH_S. unfold EVAL_NOT_CATCH_step.
  rewrite Hlist. simpl. unfold bind at 1.
  rewrite MACROEXPAND_unfold, MACROEXPAND_loop_not_macro by done.
  destruct ast; try done. simpl in *.
  destruct items; [done|]. simpl. by rewrite Hsym.
Qed.

(** [IF] evaluates the condition and returns one of its two other
    arguments as it stands; the else-branch is [nil] when there is none. *)
Lemma IF_hands_back_branch EVAL env condition yes no st :
  IF EVAL env [condition; yes; no] st
  = (result <- EVAL condition env ;; ret (if isPositive result then yes else no)) st
  ∧ IF EVAL env [condition; yes] st
    = (result <- EVAL condition env ;; ret (if isPositive result then yes else MalNil)) st.
Proof. split; reflexivity. Qed.

(** The [IF] of the tail-call step evaluates the branch it chooses. *)
Lemma Step5_IF_evaluates_branch EVAL env condition yes no st :
  Step5.IF EVAL env [condition; yes; no] st
  = (result <- EVAL condition env ;; EVAL (if isPositive result then yes else no) env) st.
Proof.
  unfold Step5.IF, bind. simpl. unfold item. simpl.
  destruct (EVAL condition env st) as [r st'| |]; try done. by destruct (isPositive r).
Qed.

(** X1: in the last evaluator an [if] form that is no macro call evaluates its
    condition and goes round the loop with the chosen branch, not yet
    evaluated, in the same environment. *)
Theorem if_tail_continues core_call fuel env condition yes no st :
  isMacroFunction env (MalList [MalSymbol Symbols.If; condition; yes; no]) st
  = Return false st →
  EVAL_NOT_CATCH core_call (S fuel) (MalList [MalSymbol Symbols.If; condition; yes; no]) env st
  = (result <- EVAL core_call fuel condition env ;;
     EVAL_NOT_CATCH core_call fuel (if isPositive result then yes else no) env) st.
Proof.
  intros Hm. rewrite EVAL_NOT_CATCH_special_form by done.
  unfold special_form. simpl. unfold bind, IF. simpl. unfold bind, item. simpl.
  unfold EVAL. by destruct (EVAL_with _ _ _ _).
Qed.

Lemma if_tail_continues_witness :
  EVAL_NOT_CATCH core_spec 3
    (MalList [MalSymbol Symbols.If; MalBoolean false; MalSymbol "x"; MalNumber 2])
    GlobalEnv initial_state
  = (result <- EVAL core_spec 2 (MalBoolean false) GlobalEnv ;;
     EVAL_NOT_CATCH core_spec 2 (if isPositive result then MalSymbol "x" else MalNumber 2)
       GlobalEnv) initial_state.
Proof.
  apply (if_tail_continues core_spec 2 GlobalEnv (MalBoolean false) (MalSymbol "x")
           (MalNumber 2) initial_state).
  vm_compute. reflexivity.
Defined.

(** C1, on the evaluator of the tail-call step: after
    [(def! f (fn* [& xs] (if true xs)))], the call [(f 1 2)] fails, because
    [IF] evaluates the branch [xs] and the loop then evaluates its value,
    the List [(1 2)], as a form; the last evaluator, which hands the branch
    back as it stands, returns [(1 2)]. The same happens to
    [(if true (list 1 2))]. *)
Theorem Step5_if_evaluates_branch_twice core_call :
  thrown_kind (then_run (Step5.EVAL core_call 5 def_rest_function GlobalEnv empty_state)
                 (Step5.EVAL core_call 5 call_rest_function GlobalEnv))
  = Some (MalUnexpectedTokenType (MalNumber 1) [ClsMalSymbol])
  ∧ returned (then_run (EVAL core_call 5 def_rest_function GlobalEnv empty_state)
                (EVAL core_call 5 call_rest_function GlobalEnv))
    = Some (MalList [MalNumber 1; MalNumber 2])
  ∧ thrown_kind (Step5.EVAL core_spec 5 if_true_list GlobalEnv initial_state)
    = Some (MalUnexpectedTokenType (MalNumber 1) [ClsMalSymbol])
  ∧ returned (EVAL core_spec 5 if_true_list GlobalEnv initial_state)
    = Some (MalList [MalNumber 1; MalNumber 2]).
Proof. repeat split; vm_compute; reflexivity. Qed.

(** C2, amended: [(eval x)], when it is no macro call, evaluates [x] in
    the current environment and goes round the loop with the resulting
    term in that same environment. *)
Theorem eval_resumes_in_current_env core_call fuel env x st :
  isMacroFunction env (MalList [MalSymbol Symbols.Eval; x]) st = Return false st →
  eval_form_resumes_in core_call fuel env env x st.
Proof.
  intros Hm. unfold eval_form_resumes_in.
  rewrite EVAL_NOT_CATCH_special_form by done.
  reflexivity.
Qed.

Lemma eval_resumes_in_current_env_witness :
  eval_form_resumes_in core_spec 2 1 1 (quoted (MalSymbol "x")) let_x_state.
Proof.
  apply (eval_resumes_in_current_env core_spec 2 1 (quoted (MalSymbol "x")) let_x_state).
  vm_compute. reflexivity.
Defined.

(** C2, as stated, fails: inside [(let* (x 7) ...)], [(eval (quote x))] is
    no macro call and returns 7, the value of [x] in the environment of the
    [let*]; resuming in the global environment would not find [x]. *)
Lemma eval_resumes_in_root_counterexample :
  isMacroFunction 1 (MalList [MalSymbol Symbols.Eval; quoted (MalSymbol "x")]) let_x_state
  = Return false let_x_state
  ∧ EVAL_NOT_CATCH core_spec 3 (MalList [MalSymbol Symbols.Eval; quoted (MalSymbol "x")])
      1 let_x_state
    = Return (MalNumber 7) let_x_state
  ∧ ¬ eval_form_resumes_in core_spec 2 GlobalEnv 1 (quoted (MalSymbol "x")) let_x_state.
Proof.
  split; [reflexivity|]. split; [reflexivity|].
  unfold eval_form_resumes_in. vm_compute. discriminate.
Qed.

(* ===================================================================== *)
(** ** Properties of quasiquote *)
(* ===================================================================== *)

(** The rules applied to a non-empty List. *)
Lemma quasiquote_cons ast1 astRest :
  quasiquote (MalList (ast1 :: astRest))
  = if symbol_equal Symbols.Unquote ast1 then
      checkMalInnerParameters Symbols.Unquote astRest 1 ;;
      ret (item 0 astRest)
    else if is_splice ast1 then
      checkMalInnerParameters Symbols.SpliceUnquote (drop 1 (seq_items ast1)) 1 ;;
      rest <- quasiquote (MalList astRest) ;;
      ret (MalList [MalSymbol Symbols.Concat; item 0 (drop 1 (seq_items ast1)); rest])
    else
      first <- quasiquote ast1 ;;
      rest <- quasiquote (MalList astRest) ;;
      ret (MalList [MalSymbol Symbols.Cons; first; rest]).
Proof. reflexivity. Qed.

(** No term is the quotation of a List that contains it. *)
Lemma quoted_not_inside y ast1 : y ≠ quoted (MalList [ast1; y]).
Proof.
  intros H. apply (f_equal size) in H. unfold quoted in H. simpl in H. lia.
Qed.

(** C5, amended: [QUASIQUOTE] returns [(quote x)] if and only if [x] is
    not a List or is the empty List, and then leaves the state as it is;
    a Vector, empty or not, is quoted whole. A non-empty List, and nothing
    else, goes through the three rules: when its head is the symbol
    [unquote], the one argument is returned as it is; when its first
    element is a non-empty List headed by [splice-unquote], the result is
    [(concat y r)], with [y] the one argument of the [splice-unquote] and
    [r] the rewrite of the rest; otherwise it is [(cons f r)], with [f] the
    rewrite of the first element and [r] the rewrite of the rest. An
    [unquote] or [splice-unquote] with another number of arguments throws
    its [MalParametersError]. *)
Theorem QUASIQUOTE_quotes_all_but_non_empty_lists env x st :
  ((∃ st', QUASIQUOTE env [x] st = Return (quoted x) st')
   ↔ (isMalList x = false ∨ x = MalList []))
  ∧ (isMalList x = false ∨ x = MalList [] →
     QUASIQUOTE env [x] st = Return (quoted x) st)
  ∧ (∀ ast1 astRest, x = MalList (ast1 :: astRest) →
     QUASIQUOTE env [x] st
     = (if symbol_equal Symbols.Unquote ast1 then
          checkMalInnerParameters Symbols.Unquote astRest 1 ;;
          ret (item 0 astRest)
        else if is_splice ast1 then
          checkMalInnerParameters Symbols.SpliceUnquote (drop 1 (seq_items ast1)) 1 ;;
          rest <- QUASIQUOTE env [MalList astRest] ;;
          ret (MalList [MalSymbol Symbols.Concat; item 0 (drop 1 (seq_items ast1)); rest])
        else
          first <- QUASIQUOTE env [ast1] ;;
          rest <- QUASIQUOTE env [MalList astRest] ;;
          ret (MalList [MalSymbol Symbols.Cons; first; rest])) st)
  ∧ (∀ y astRest, x = MalList (MalSymbol Symbols.Unquote :: astRest) →
     (astRest = [y] → QUASIQUOTE env [x] st = Return y st)
     ∧ (length astRest ≠ 1 →
        QUASIQUOTE env [x] st
        = throw_new (MalParametersError Symbols.Unquote (length astRest) 1) st))
  ∧ (∀ y astRest r st', x = MalList (MalList [MalSymbol Symbols.SpliceUnquote; y] :: astRest) →
     QUASIQUOTE env [MalList astRest] st = Return r st' →
     QUASIQUOTE env [x] st = Return (MalList [MalSymbol Symbols.Concat; y; r]) st')
  ∧ (∀ ast1 astRest f st1 r st', x = MalList (ast1 :: astRest) →
     symbol_equal Symbols.Unquote ast1 = false → is_splice ast1 = false →
     QUASIQUOTE env [ast1] st = Return f st1 →
     QUASIQUOTE env [MalList astRest] st1 = Return r st' →
     QUASIQUOTE env [x] st = Return (MalList [MalSymbol Symbols.Cons; f; r]) st').
Proof.
  assert (Hrun : ∀ y st0, QUASIQUOTE env [y] st0 = quasiquote y st0) by reflexivity.
  assert (Hback : isMalList x = false ∨ x = MalList [] →
                  QUASIQUOTE env [x] st = Return (quoted x) st).
  { intros [Hx| ->]; [|reflexivity]. by destruct x. }
  assert (Hrules : ∀ ast1 astRest, x = MalList (ast1 :: astRest) →
     QUASIQUOTE env [x] st
     = (if symbol_equal Symbols.Unquote ast1 then
          checkMalInnerParameters Symbols.Unquote astRest 1 ;;
          ret (item 0 astRest)
        else if is_splice ast1 then
          checkMalInnerParameters Symbols.SpliceUnquote (drop 1 (seq_items ast1)) 1 ;;
          rest <- QUASIQUOTE env [MalList astRest] ;;
          ret (MalList [MalSymbol Symbols.Concat; item 0 (drop 1 (seq_items ast1)); rest])
        else
          first <- QUASIQUOTE env [ast1] ;;
          rest <- QUASIQUOTE env [MalList astRest] ;;
          ret (MalList [MalSymbol Symbols.Cons; first; rest])) st).
  { intros ast1 astRest ->. rewrite Hrun, quasiquote_cons.
    destruct (symbol_equal Symbols.Unquote ast1); [done|].
    by destruct (is_splice ast1). }
  split; [|split; [done|split; [exact Hrules|]]].
  2:{ split; [|split].
      - intros y astRest ->. rewrite (Hrules _ _ eq_refl). simpl. split.
        + by intros ->.
        + intros Hlen. unfold bind, checkMalInnerParameters.
          by rewrite bool_decide_eq_true_2.
      - intros y astRest r st' -> Hrest. rewrite (Hrules _ _ eq_refl). simpl.
        unfold bind. simpl. by rewrite Hrest.
      - intros ast1 astRest f st1 r st' -> Hu Hs Hfirst Hrest.
        rewrite (Hrules _ _ eq_refl), Hu, Hs. unfold bind. by rewrite Hfirst, Hrest. }
  split; [|eauto].
  intros [st' H].
  destruct x as [| | | | | |items| | | | | | | | | |]; try (by left).
  destruct items as [|ast1 astRest]; [by right|]. exfalso.
  change (quasiquote (MalList (ast1 :: astRest)) st
          = Return (quoted (MalList (ast1 :: astRest))) st') in H.
  rewrite quasiquote_cons in H.
  destruct (symbol_equal Symbols.Unquote ast1).
  - unfold bind, checkMalInnerParameters in H.
    case_bool_decide as Hlen; [done|].
    destruct astRest as [|y [|]]; simpl in Hlen; try done.
    injection H as H _. by apply quoted_not_inside in H.
  - destruct (is_splice ast1); unfold bind in H.
    + destruct (checkMalInnerParameters _ _ _ _); try done.
      destruct (quasiquote (MalList astRest) _); try done.
    + destruct (quasiquote ast1 _); try done.
      destruct (quasiquote (MalList astRest) _); try done.
Qed.

(** C5, as stated, fails: the Vector [[1]] is a non-empty sequential and
    is returned quoted, where the List [(1)] is rewritten with [cons]. *)
Lemma quasiquote_vector_counterexample :
  isMalSequential (MalVector [MalNumber 1]) = true
  ∧ seq_items (MalVector [MalNumber 1]) ≠ []
  ∧ QUASIQUOTE GlobalEnv [MalVector [MalNumber 1]] initial_state
    = Return (quoted (MalVector [MalNumber 1])) initial_state
  ∧ QUASIQUOTE GlobalEnv [MalList [MalNumber 1]] initial_state
    = Return (MalList [MalSymbol Symbols.Cons; quoted (MalNumber 1); quoted (MalList [])])
        initial_state.
Proof. repeat split; done. Qed.

(* ===================================================================== *)
(** ** Properties of try* *)
(* ===================================================================== *)

(** A symbol bound in a frame is found there. *)
Lemma lookup_frame st e sym fr v :
  envs st !! e = Some fr → data fr !! sym = Some v →
  MalEnv.lookup st e sym = Some v.
Proof.
  intros H1 H2. unfold MalEnv.lookup, MalEnv.find.
  destruct (length (envs st)) as [|n] eqn:E.
  { apply lookup_lt_Some in H1. lia. }
  simpl. rewrite H1, H2. simpl. by rewrite H1.
Qed.

(** C6, amended: [(try* a (catch* name body))] returns the value of [a]
    when [a] does not throw, and binds nothing; when [a] throws, [name] is
    bound to the value that was caught, as it was caught and whatever it
    is (a Term, an Error object or a host value), in a new child of the
    environment of the [try*], and [body] is evaluated there. *)
Theorem TRY_binds_caught_value EVAL env a name body st :
  name ≠ "&" →
  TRY EVAL env [a; MalList [MalSymbol Symbols.Catch; MalSymbol name; body]] st
  = match EVAL a env st with
    | Return v st' => Return v st'
    | Throw error st' => catch_with EVAL env name body error st'
    | OutOfFuel => OutOfFuel
    end.
Proof.
  intros Hname. unfold TRY, catch_with, bind, try_catch, item. simpl.
  destruct (EVAL a env st) as [v st'|error st'|]; try done.
  unfold MalEnv.new. simpl. by rewrite bool_decide_eq_false_2 by done.
Qed.

Lemma TRY_binds_caught_value_witness :
  TRY (EVAL core_spec 3) GlobalEnv [call_5; catch_e] empty_state
  = match EVAL core_spec 3 call_5 GlobalEnv empty_state with
    | Return v st' => Return v st'
    | Throw error st' =>
        catch_with (EVAL core_spec 3) GlobalEnv "e" (MalSymbol "e") error st'
    | OutOfFuel => OutOfFuel
    end.
Proof.
  apply (TRY_binds_caught_value (EVAL core_spec 3) GlobalEnv call_5 "e" (MalSymbol "e")
           empty_state).
  discriminate.
Defined.

(** C6, as stated, fails, whatever the built-ins are: the value bound by
    the handler need not be a Term. [(try* (try* 1 2) (catch* e e))]: the
    inner [try*] has a malformed handler, [checkCatchAst] throws the host
    value [false], and the outer handler binds [e] to it and returns it.
    [(try* (5 1) (catch* e e))]: the call of 5 throws the string of
    [MalType.call], and the handler returns that string. The outcome is not
    the one of a handler run with [e] bound to any Term. *)
Lemma TRY_binds_host_value_counterexample :
  isMalType JsFalse = false
  ∧ isMalType (JsNotCallable (MalNumber 5)) = false
  ∧ ∀ core_call,
      EVAL core_call 3 malformed_try GlobalEnv empty_state = Throw JsFalse empty_state
      ∧ returned (TRY (EVAL core_call 3) GlobalEnv [malformed_try; catch_e] empty_state)
        = Some JsFalse
      ∧ (∀ t, isMalType t = true →
           TRY (EVAL core_call 3) GlobalEnv [malformed_try; catch_e] empty_state
           ≠ catch_with (EVAL core_call 3) GlobalEnv "e" (MalSymbol "e") t empty_state)
      ∧ EVAL core_call 3 call_5 GlobalEnv empty_state
        = Throw (JsNotCallable (MalNumber 5)) empty_state
      ∧ returned (TRY (EVAL core_call 3) GlobalEnv [call_5; catch_e] empty_state)
        = Some (JsNotCallable (MalNumber 5))
      ∧ (∀ t, isMalType t = true →
           TRY (EVAL core_call 3) GlobalEnv [call_5; catch_e] empty_state
           ≠ catch_with (EVAL core_call 3) GlobalEnv "e" (MalSymbol "e") t empty_state).
Proof.
  split; [reflexivity|]. split; [reflexivity|]. intros core_call.
  assert (Hbound : ∀ t,
    catch_with (EVAL core_call 3) GlobalEnv "e" (MalSymbol "e") t empty_state
    = Return t (with_envs (λ es, es ++ [{| outer := Some GlobalEnv; data := {[ "e" := t ]} |}])
                  empty_state)).
  { intros t. unfold catch_with, EVAL, EVAL_with, try_catch. simpl.
    rewrite EVAL_NOT_CATCH_S. unfold EVAL_NOT_CATCH_step. simpl. unfold MalEnv.get.
    erewrite lookup_frame; [done|reflexivity|]. simpl.
    first [apply lookup_singleton_eq | apply lookup_singleton]. }
  repeat split; try reflexivity.
  - intros t Ht H. rewrite Hbound in H.
    assert (Hrun : TRY (EVAL core_call 3) GlobalEnv [malformed_try; catch_e] empty_state
                   = catch_with (EVAL core_call 3) GlobalEnv "e" (MalSymbol "e") JsFalse
                       empty_state) by reflexivity.
    rewrite Hrun, Hbound in H. injection H as H _. by subst.
  - intros t Ht H. rewrite Hbound in H.
    assert (Hrun : TRY (EVAL core_call 3) GlobalEnv [call_5; catch_e] empty_state
                   = catch_with (EVAL core_call 3) GlobalEnv "e" (MalSymbol "e")
                       (JsNotCallable (MalNumber 5)) empty_state) by reflexivity.
    rewrite Hrun, Hbound in H. injection H as H _. by subst.
Qed.

(* ===================================================================== *)
(** ** Properties of the trace of an Error *)
(* ===================================================================== *)

(** [pushAst] touches the trace of one Error and nothing else. *)
Lemma trace_pushAst e a st st' :
  pushAst e a st = Return () st' →
  envs st' = envs st ∧ functions st' = functions st ∧ atoms st' = atoms st
  ∧ (∀ e', e' ≠ e → errors st' !! e' = errors st !! e')
  ∧ kind <$> errors st' !! e = kind <$> errors st !! e
  ∧ (is_Some (errors st !! e) → trace st' e = trace st e ++ [a]).
Proof.
  intros [= <-]. unfold trace, with_errors. simpl. repeat split.
  - intros e' Hne. by rewrite list_lookup_alter_ne.
  - rewrite list_lookup_alter_eq. by destruct (errors st !! e).
  - intros [o Ho]. by rewrite list_lookup_alter_eq, Ho.
Qed.

(** An Error that leaves [EVAL_NOT_CATCH] leaves [EVAL] too, with the AST
    that [EVAL] was called on pushed on its trace. *)
Lemma EVAL_with_pushes_ast EVAL_NOT_CATCH ast env e st st' :
  EVAL_NOT_CATCH ast env st = Throw (MalError e) st' →
  EVAL_with EVAL_NOT_CATCH ast env st
  = Throw (MalError e)
      (with_errors (alter (λ o, {| kind := kind o; asts := asts o ++ [ast] |}) e) st').
Proof. intros H. unfold EVAL_with, try_catch. by rewrite H. Qed.

(** A thrown value that is no Error goes through [EVAL] untouched. *)
Lemma EVAL_with_rethrows EVAL_NOT_CATCH ast env error st st' :
  EVAL_NOT_CATCH ast env st = Throw error st' →
  isMalError error = false →
  EVAL_with EVAL_NOT_CATCH ast env st = Throw error st'.
Proof. intros H Hne. unfold EVAL_with, try_catch. by rewrite H, Hne. Qed.

(** [EVAL] is one activation around [EVAL_NOT_CATCH]. *)
Lemma EVAL_is_nested_EVAL core_call fuel ast env st :
  EVAL core_call fuel ast env st
  = nested_EVAL [(ast, env)] (EVAL_NOT_CATCH core_call fuel ast env) st.
Proof. reflexivity. Qed.

(** The last entry of the trace of an Error that leaves [EVAL] is the AST
    that [EVAL] was called on. *)
Lemma EVAL_trace_ends_with_ast core_call fuel ast env st e st' :
  EVAL core_call fuel ast env st = Throw (MalError e) st' →
  is_Some (errors st' !! e) →
  ∃ t, trace st' e = t ++ [ast].
Proof.
  unfold EVAL, EVAL_with, try_catch.
  destruct (EVAL_NOT_CATCH core_call fuel ast env st) as [v st0|error st0|]; try done.
  destruct (isMalError error) eqn:Herr.
  - destruct error; try done. unfold bind. simpl. intros [= <- <-] Hsome.
    unfold trace, with_errors in *. simpl in *.
    rewrite list_lookup_alter_eq in *.
    destruct (errors st0 !! e0) as [o|]; [|by destruct Hsome]. simpl. by eexists.
  - intros [= -> _]. done.
Qed.

(** C7: an Error that unwinds through nested calls of [EVAL] is thrown
    again by the outermost one; on the way its trace gains the ASTs of
    those calls, innermost first, after the entries it had, which stay as
    they were; its kind, the other Errors and the rest of the state are
    untouched. *)
Theorem trace_gains_unwound_asts frames body e st st' :
  body st = Throw (MalError e) st' →
  ∃ st'', nested_EVAL frames body st = Throw (MalError e) st''
    ∧ envs st'' = envs st' ∧ functions st'' = functions st' ∧ atoms st'' = atoms st'
    ∧ (∀ e', e' ≠ e → errors st'' !! e' = errors st' !! e')
    ∧ kind <$> errors st'' !! e = kind <$> errors st' !! e
    ∧ (is_Some (errors st' !! e) → trace st'' e = trace st' e ++ rev (frames.*1)).
Proof.
  intros Hbody. induction frames as [|[ast env] inner IH]; simpl.
  - exists st'. repeat split; try done. intros _. by rewrite app_nil_r.
  - destruct IH as (st1 & Hin & Henvs & Hfuns & Hatoms & Hother & Hkind & Htrace).
    unfold EVAL_with, try_catch. rewrite Hin. simpl. unfold bind.
    destruct (pushAst e ast st1) as [[] st2| |] eqn:Hpush; try done.
    destruct (trace_pushAst _ _ _ _ Hpush) as (E1 & E2 & E3 & E4 & E5 & E6).
    exists st2. repeat split; try congruence.
    + intros e' Hne. rewrite E4, Hother; done.
    + intros Hsome.
      assert (Hsome1 : is_Some (errors st1 !! e)).
      { destruct Hsome as [o Ho]. rewrite Ho in Hkind.
        destruct (errors st1 !! e); [by eexists|done]. }
      rewrite (E6 Hsome1), (Htrace Hsome). by rewrite <- app_assoc.
Qed.

(** C7 at work: the Error of [(throw 5)] leaves the innermost [EVAL] with
    the trace [[(throw 5)]] and the two enclosing ones with
    [(do (throw 5))] and then [(def! a (do (throw 5)))] added. *)
Lemma trace_gains_unwound_asts_witness :
  ∃ st' st'',
    EVAL core_spec 3 throw_5 GlobalEnv initial_state = Throw (MalError 0) st'
    ∧ trace st' 0 = [throw_5]
    ∧ nested_EVAL unwinding_frames (EVAL core_spec 3 throw_5 GlobalEnv) initial_state
      = Throw (MalError 0) st''
    ∧ trace st'' 0 = [throw_5; do_throw_5; def_do_throw_5].
Proof.
  eexists.
  destruct (trace_gains_unwound_asts unwinding_frames (EVAL core_spec 3 throw_5 GlobalEnv)
              0 initial_state _ eq_refl)
    as (st'' & Hrun & _ & _ & _ & _ & _ & Htrace).
  exists st''. split; [reflexivity|]. split; [reflexivity|]. split; [exact Hrun|].
  rewrite Htrace; [reflexivity|]. eexists. reflexivity.
Defined.

(** The whole evaluator on [(def! a (do (throw 5)))]: the three ASTs are
    on the trace of the Error, innermost first. *)
Lemma trace_of_nested_forms :
  match EVAL core_spec 6 def_do_throw_5 GlobalEnv initial_state with
  | Throw (MalError e) st => trace st e = [throw_5; do_throw_5; def_do_throw_5]
  | _ => False
  end.
Proof. vm_compute. reflexivity. Qed.

(* ===================================================================== *)
(** ** The traces are append-only throughout an evaluation *)
(* ===================================================================== *)

Lemma traces_extended_refl st : traces_extended st st.
Proof. intros e o H. by exists o. Qed.

Lemma traces_extended_trans st1 st2 st3 :
  traces_extended st1 st2 → traces_extended st2 st3 → traces_extended st1 st3.
Proof.
  intros H12 H23 e o Ho.
  destruct (H12 _ _ Ho) as (o2 & Ho2 & Hk2 & Hp2).
  destruct (H23 _ _ Ho2) as (o3 & Ho3 & Hk3 & Hp3).
  exists o3. repeat split; [done|congruence|by etrans].
Qed.

Lemma traces_extended_same_errors st st' :
  errors st' = errors st → traces_extended st st'.
Proof. intros H e o Ho. exists o. by rewrite H. Qed.

Lemma append_only_ret {A} (a : A) : append_only (ret a).
Proof. intros st. apply traces_extended_refl. Qed.

Lemma append_only_throw {A} e : append_only (@throw A e).
Proof. intros st. apply traces_extended_refl. Qed.

Lemma append_only_bind {A B} (m : M A) (k : A → M B) :
  append_only m → (∀ a, append_only (k a)) → append_only (bind m k).
Proof.
  intros Hm Hk st. unfold bind. specialize (Hm st).
  destruct (m st) as [a st1|e st1|]; try done.
  specialize (Hk a st1). destruct (k a st1); try done; by eapply traces_extended_trans.
Qed.

Lemma append_only_try_catch {A} (m : M A) handler :
  append_only m → (∀ e, append_only (handler e)) → append_only (try_catch m handler).
Proof.
  intros Hm Hk st. unfold try_catch. specialize (Hm st).
  destruct (m st) as [a st1|e st1|]; try done.
  specialize (Hk e st1). destruct (handler e st1); try done; by eapply traces_extended_trans.
Qed.

Lemma append_only_throw_new {A} k : append_only (@throw_new A k).
Proof.
  intros st e o Ho. exists o. unfold with_errors. simpl.
  by rewrite lookup_app_l by (by eapply lookup_lt_Some).
Qed.

Lemma append_only_pushAst e a : append_only (pushAst e a).
Proof.
  intros st e' o Ho. unfold pushAst, with_errors. simpl.
  destruct (decide (e = e')) as [->|Hne].
  - rewrite list_lookup_alter_eq, Ho. simpl. eexists. repeat split; try done.
    simpl. by apply prefix_app_r.
  - rewrite list_lookup_alter_ne by done. by exists o.
Qed.

Lemma append_only_mapM {A B} (f : A → M B) l :
  (∀ x, append_only (f x)) → append_only (mapM f l).
Proof.
  intros Hf. induction l as [|x l IH]; simpl; [apply append_only_ret|].
  apply append_only_bind; [done|]. intros y.
  apply append_only_bind; [done|]. intros ys. apply append_only_ret.
Qed.

Lemma append_only_if {A} (b : bool) (m1 m2 : M A) :
  append_only m1 → append_only m2 → append_only (if b then m1 else m2).
Proof. by destruct b. Qed.

(** One step of a proof that a computation built from the operations of
    the monad is append-only. *)
Ltac append_only_step :=
  first [ apply append_only_ret | apply append_only_throw | apply append_only_throw_new
        | apply append_only_pushAst
        | apply append_only_bind; [|intros ?]
        | apply append_only_if
        | apply append_only_mapM; intros ? ].

Lemma append_only_checkMalType instance excepted unexcepted :
  append_only (checkMalType instance excepted unexcepted).
Proof. unfold checkMalType. repeat append_only_step. Qed.

Lemma append_only_checkMalInnerParameters symbol parameters n :
  append_only (checkMalInnerParameters symbol parameters n).
Proof. unfold checkMalInnerParameters. repeat append_only_step. Qed.

Lemma append_only_checkMalInnerMultipleParameters symbol parameters n :
  append_only (checkMalInnerMultipleParameters symbol parameters n).
Proof. unfold checkMalInnerMultipleParameters. repeat append_only_step. Qed.

Lemma append_only_checkMalSequentialBaseLength instance base :
  append_only (checkMalSequentialBaseLength instance base).
Proof. unfold checkMalSequentialBaseLength. repeat append_only_step. Qed.

Lemma append_only_checkMalBindings symbol bindings :
  append_only (checkMalBindings symbol bindings).
Proof.
  unfold checkMalBindings. apply append_only_bind; [apply append_only_checkMalType|].
  intros _. induction (rev (seq_items bindings)) as [|b l IH]; simpl.
  - apply append_only_ret.
  - apply append_only_bind; [apply append_only_checkMalType|]. intros _.
    apply append_only_if; [apply append_only_throw_new|done].
Qed.

Lemma append_only_checkCatchAst instance : append_only (checkCatchAst instance).
Proof.
  unfold checkCatchAst. repeat (apply append_only_if; [apply append_only_throw|]).
  apply append_only_bind; [apply append_only_checkMalInnerParameters|]. intros _.
  apply append_only_checkMalType.
Qed.

Lemma append_only_has e sym : append_only (MalEnv.has e sym).
Proof. intros st. apply traces_extended_refl. Qed.

Lemma append_only_get e sym : append_only (MalEnv.get e sym).
Proof.
  intros st. unfold MalEnv.get. destruct (MalEnv.lookup st e sym).
  - apply traces_extended_refl.
  - apply (append_only_throw_new (A:=MalType)).
Qed.

Lemma append_only_set e sym v : append_only (MalEnv.set e sym v).
Proof. intros st. by apply traces_extended_same_errors. Qed.

Lemma append_only_new o binds exprs : append_only (MalEnv.new o binds exprs).
Proof.
  intros st. unfold MalEnv.new. destruct (MalEnv.bind_params _ _ _ _ _).
  - apply (append_only_throw_new (A:=nat)).
  - by apply traces_extended_same_errors.
Qed.

Lemma append_only_function f : append_only (function f).
Proof. intros st. unfold function. destruct (functions st !! f); apply traces_extended_refl. Qed.

Lemma append_only_new_MalFunction a b e : append_only (new_MalFunction a b e).
Proof. intros st. by apply traces_extended_same_errors. Qed.

Lemma append_only_set_isMacro f : append_only (set_isMacro f).
Proof. intros st. by apply traces_extended_same_errors. Qed.

Lemma append_only_isMacroFunction env ast : append_only (isMacroFunction env ast).
Proof.
  unfold isMacroFunction. repeat (apply append_only_if; [apply append_only_ret|]).
  apply append_only_bind; [apply append_only_has|]. intros b.
  apply append_only_if; [apply append_only_ret|].
  apply append_only_bind; [apply append_only_get|]. intros func.
  destruct func; try apply append_only_ret.
  apply append_only_bind; [apply append_only_function|]. intros fo. apply append_only_ret.
Qed.

Lemma size_pos t : 0 < size t.
Proof. destruct t; simpl; lia. Qed.

Lemma size_cons ast1 astRest :
  size (MalList (ast1 :: astRest)) = size ast1 + size (MalList astRest).
Proof. simpl. lia. Qed.

Lemma append_only_quasiquote ast : append_only (quasiquote ast).
Proof.
  remember (size ast) as n eqn:Hn. revert ast Hn.
  induction n as [n IH] using lt_wf_ind. intros ast ->.
  destruct ast as [| | | | | |items| | | | | | | | | |]; try apply append_only_ret.
  destruct items as [|ast1 astRest]; [apply append_only_ret|].
  rewrite quasiquote_cons.
  pose proof (size_cons ast1 astRest) as Hs.
  pose proof (size_pos ast1). pose proof (size_pos (MalList astRest)).
  assert (H1 : append_only (quasiquote ast1)) by (eapply IH; [|reflexivity]; lia).
  assert (H2 : append_only (quasiquote (MalList astRest))) by (eapply IH; [|reflexivity]; lia).
  apply append_only_if.
  - apply append_only_bind; [apply append_only_checkMalInnerParameters|].
    intros _. apply append_only_ret.
  - apply append_only_if.
    + apply append_only_bind; [apply append_only_checkMalInnerParameters|]. intros _.
      apply append_only_bind; [done|]. intros ?. apply append_only_ret.
    + apply append_only_bind; [done|]. intros ?.
      apply append_only_bind; [done|]. intros ?. apply append_only_ret.
Qed.

Lemma append_only_QUASIQUOTE env args : append_only (QUASIQUOTE env args).
Proof.
  unfold QUASIQUOTE. apply append_only_bind; [apply append_only_checkMalInnerParameters|].
  intros _. apply append_only_quasiquote.
Qed.

Lemma append_only_QUOTE env args : append_only (QUOTE env args).
Proof.
  unfold QUOTE. apply append_only_bind; [apply append_only_checkMalInnerParameters|].
  intros _. apply append_only_ret.
Qed.

Lemma append_only_EVAL_with rec ast env :
  (∀ a e, append_only (rec a e)) → append_only (EVAL_with rec ast env).
Proof.
  intros Hrec. unfold EVAL_with. apply append_only_try_catch; [done|].
  intros error. apply append_only_if; [|apply append_only_throw].
  apply append_only_bind; [|intros; apply append_only_throw].
  destruct error; try apply append_only_ret. apply append_only_pushAst.
Qed.

Section FormsAppendOnly.

Variable EVAL : MalType → nat → M MalType.
Variable call_rec : MalType → list MalType → M MalType.
Variable fuel : nat.
Variable core_call :
  (MalType → list MalType → M MalType) → string → list MalType → M MalType.

Hypothesis EVAL_ok : ∀ a e, append_only (EVAL a e).
Hypothesis call_rec_ok : ∀ f args, append_only (call_rec f args).
Hypothesis core_call_ok :
  ∀ callback, (∀ f args, append_only (callback f args)) →
              ∀ name args, append_only (core_call callback name args).

Lemma append_only_EVAL_AST ast env : append_only (EVAL_AST EVAL ast env).
Proof.
  destruct ast; simpl; try apply append_only_ret.
  - apply append_only_get.
  - apply append_only_bind; [by apply append_only_mapM|]. intros ?. apply append_only_ret.
  - apply append_only_bind; [by apply append_only_mapM|]. intros ?. apply append_only_ret.
  - apply append_only_bind; [|intros ?; apply append_only_ret].
    apply append_only_mapM. intros kv.
    apply append_only_bind; [done|]. intros ?. apply append_only_ret.
Qed.

Lemma append_only_DEF env args : append_only (DEF EVAL env args).
Proof.
  unfold DEF. apply append_only_bind; [apply append_only_checkMalInnerParameters|]. intros _.
  apply append_only_bind; [apply append_only_checkMalType|]. intros _.
  apply append_only_bind; [done|]. intros v. apply append_only_set.
Qed.

Lemma append_only_LET_bindings newEnv items : append_only (LET_bindings EVAL newEnv items).
Proof.
  remember (length items) as n eqn:Hn. revert items Hn.
  induction n as [n IH] using lt_wf_ind. intros items ->.
  destruct items as [|key [|value rest]]; simpl.
  - apply append_only_ret.
  - apply append_only_bind; [apply append_only_checkMalType|]. intros _.
    apply append_only_bind; [done|]. intros v.
    apply append_only_bind; [apply append_only_set|]. intros _. apply append_only_ret.
  - apply append_only_bind; [apply append_only_checkMalType|]. intros _.
    apply append_only_bind; [done|]. intros v.
    apply append_only_bind; [apply append_only_set|]. intros _.
    eapply IH; [|reflexivity]. simpl. lia.
Qed.

Lemma append_only_LET env args : append_only (LET EVAL env args).
Proof.
  unfold LET. apply append_only_bind; [apply append_only_checkMalInnerParameters|]. intros _.
  apply append_only_bind; [apply append_only_checkMalType|]. intros _.
  apply append_only_bind; [apply append_only_new|]. intros newEnv.
  apply append_only_bind; [apply append_only_checkMalSequentialBaseLength|]. intros _.
  apply append_only_bind; [apply append_only_LET_bindings|]. intros _. apply append_only_ret.
Qed.

Lemma append_only_DO env args : append_only (DO EVAL env args).
Proof.
  unfold DO. apply append_only_bind; [apply append_only_checkMalInnerMultipleParameters|].
  intros _. apply append_only_bind; [apply append_only_EVAL_AST|]. intros ?.
  apply append_only_ret.
Qed.

Lemma append_only_IF env args : append_only (IF EVAL env args).
Proof.
  unfold IF. apply append_only_bind; [apply append_only_checkMalInnerParameters|]. intros _.
  apply append_only_bind; [done|]. intros ?. apply append_only_ret.
Qed.

Lemma append_only_FN env args : append_only (FN env args).
Proof.
  unfold FN. apply append_only_bind; [apply append_only_checkMalInnerParameters|]. intros _.
  apply append_only_bind; [apply append_only_checkMalBindings|]. intros _.
  apply append_only_new_MalFunction.
Qed.

Lemma append_only_EVALFUNC env args : append_only (EVALFUNC EVAL env args).
Proof.
  unfold EVALFUNC. apply append_only_bind; [apply append_only_checkMalInnerParameters|].
  intros _. done.
Qed.

Lemma append_only_DEFMACRO env args : append_only (DEFMACRO EVAL env args).
Proof.
  unfold DEFMACRO.
  apply append_only_bind; [apply append_only_checkMalInnerParameters|]. intros _.
  apply append_only_bind; [apply append_only_checkMalType|]. intros _.
  apply append_only_bind; [done|]. intros func.
  apply append_only_bind; [apply append_only_checkMalType|]. intros _.
  apply append_only_bind; [|intros _; apply append_only_set].
  destruct func; try apply append_only_ret. apply append_only_set_isMacro.
Qed.

Lemma append_only_MalFunction_call f fnArgs : append_only (MalFunction_call EVAL f fnArgs).
Proof.
  unfold MalFunction_call. apply append_only_bind; [apply append_only_function|]. intros fo.
  apply append_only_bind; [apply append_only_new|]. intros newEnv. done.
Qed.

Lemma append_only_call func args : append_only (call EVAL call_rec core_call func args).
Proof.
  destruct func; simpl; try apply append_only_throw.
  - apply append_only_MalFunction_call.
  - by apply core_call_ok.
Qed.

Lemma append_only_MACROEXPAND_loop n env ast :
  append_only (MACROEXPAND_loop EVAL call_rec core_call n env ast).
Proof.
  revert ast. induction n as [|n IH]; intros ast; simpl;
    (apply append_only_bind; [apply append_only_isMacroFunction|]); intros b;
    (apply append_only_if; [|apply append_only_ret]).
  - by intros st.
  - apply append_only_bind; [apply append_only_get|]. intros func.
    apply append_only_bind; [apply append_only_call|]. intros ast'. apply IH.
Qed.

Lemma append_only_MACROEXPAND env args :
  append_only (MACROEXPAND EVAL call_rec fuel core_call env args).
Proof.
  unfold MACROEXPAND. apply append_only_bind; [apply append_only_checkMalInnerParameters|].
  intros _. apply append_only_MACROEXPAND_loop.
Qed.

Lemma append_only_TRY env args : append_only (TRY EVAL env args).
Proof.
  unfold TRY. apply append_only_bind; [apply append_only_checkMalInnerParameters|]. intros _.
  apply append_only_bind; [apply append_only_checkCatchAst|]. intros _.
  apply append_only_try_catch; [done|]. intros error.
  apply append_only_bind; [apply append_only_new|]. intros newEnv. done.
Qed.

End FormsAppendOnly.

Section LoopAppendOnly.

Variable fuel : nat.
Variable core_call :
  (MalType → list MalType → M MalType) → string → list MalType → M MalType.
Variable EVAL_NOT_CATCH_rec : MalType → nat → M MalType.
Variable call_rec : MalType → list MalType → M MalType.

Hypothesis rec_ok : ∀ a e, append_only (EVAL_NOT_CATCH_rec a e).
Hypothesis call_rec_ok : ∀ f args, append_only (call_rec f args).
Hypothesis core_call_ok :
  ∀ callback, (∀ f args, append_only (callback f args)) →
              ∀ name args, append_only (core_call callback name args).

Lemma append_only_application ast env :
  append_only (application core_call EVAL_NOT_CATCH_rec call_rec ast env).
Proof.
  unfold application.
  apply append_only_bind; [apply append_only_EVAL_AST; intros; by apply append_only_EVAL_with|].
  intros result. apply append_only_bind; [apply append_only_checkMalType|]. intros _.
  destruct (item 0 (seq_items result));
    try (apply append_only_call; [intros; by apply append_only_EVAL_with|done..]).
  apply append_only_bind; [apply append_only_function|]. intros fo.
  apply append_only_bind; [apply append_only_new|]. intros env'. done.
Qed.

Lemma append_only_special_form ast env :
  append_only (special_form fuel core_call EVAL_NOT_CATCH_rec call_rec ast env).
Proof.
  assert (HE : ∀ a e, append_only (EVAL_with EVAL_NOT_CATCH_rec a e))
    by (intros; by apply append_only_EVAL_with).
  unfold special_form.
  repeat (apply append_only_if;
          [ first [ by apply append_only_DEF | by apply append_only_FN
                  | apply append_only_QUOTE | by apply append_only_DEFMACRO
                  | by apply append_only_TRY
                  | apply append_only_bind;
                    [ first [ by apply append_only_LET | by apply append_only_DO
                            | by apply append_only_IF | by apply append_only_EVALFUNC
                            | apply append_only_QUASIQUOTE
                            | by apply append_only_MACROEXPAND ]
                    | intros ?; apply rec_ok ] ]
          | ]).
  apply append_only_application.
Qed.

Lemma append_only_EVAL_NOT_CATCH_step ast env :
  append_only (EVAL_NOT_CATCH_step fuel core_call EVAL_NOT_CATCH_rec call_rec ast env).
Proof.
  assert (HE : ∀ a e, append_only (EVAL_with EVAL_NOT_CATCH_rec a e))
    by (intros; by apply append_only_EVAL_with).
  unfold EVAL_NOT_CATCH_step.
  apply append_only_if; [by apply append_only_EVAL_AST|].
  apply append_only_bind; [by apply append_only_MACROEXPAND|]. intros ast'.
  apply append_only_if; [by apply append_only_EVAL_AST|].
  apply append_only_if; [apply append_only_ret|].
  apply append_only_if; [apply append_only_special_form|apply append_only_application].
Qed.

End LoopAppendOnly.

Section EvaluatorAppendOnly.

Variable core_call :
  (MalType → list MalType → M MalType) → string → list MalType → M MalType.
Hypothesis core_call_ok :
  ∀ callback, (∀ f args, append_only (callback f args)) →
              ∀ name args, append_only (core_call callback name args).

Lemma append_only_interp fuel :
  (∀ a e, append_only ((interp core_call fuel).1 a e))
  ∧ (∀ f args, append_only ((interp core_call fuel).2 f args)).
Proof.
  induction fuel as [|n [IH1 IH2]]; simpl.
  - split; intros; by intros st.
  - split; intros.
    + by apply append_only_EVAL_NOT_CATCH_step.
    + apply append_only_call; [intros; by apply append_only_EVAL_with|done..].
Qed.

(** X2: whatever [EVAL] does, no Error disappears, none changes its kind, and
    no entry of a trace is removed or altered, provided the built-ins
    behave so when the functions they call do. *)
Theorem EVAL_append_only fuel ast env st :
  match EVAL core_call fuel ast env st with
  | Return _ st' | Throw _ st' => traces_extended st st'
  | OutOfFuel => True
  end.
Proof.
  apply (append_only_EVAL_with (EVAL_NOT_CATCH core_call fuel) ast env).
  apply append_only_interp.
Qed.

End EvaluatorAppendOnly.

(** The built-ins [throw] and [list] are append-only. *)
Lemma core_spec_append_only callback :
  (∀ f args, append_only (callback f args)) →
  ∀ name args, append_only (core_spec callback name args).
Proof.
  intros _ name args. unfold core_spec.
  repeat (apply append_only_if; [first [apply append_only_throw_new|apply append_only_ret]|]).
  apply append_only_throw.
Qed.

Lemma EVAL_append_only_witness :
  match EVAL core_spec 6 def_do_throw_5 GlobalEnv caught_state with
  | Return _ st' | Throw _ st' => traces_extended caught_state st'
  | OutOfFuel => True
  end.
Proof.
  apply (EVAL_append_only core_spec core_spec_append_only 6 def_do_throw_5 GlobalEnv
           caught_state).
Defined.

(* ===================================================================== *)
(** ** Further properties of types.ts *)
(* ===================================================================== *)

Section TypesMore.

Import Types.

Lemma strict_equal_true a b : strict_equal a b = true ↔ a = b.
Proof.
  destruct a, b; simpl; try (split; [done|congruence]);
    rewrite ?bool_decide_eq_true; split; congruence.
Qed.

Lemma valueEqual_true o1 o2 : valueEqual o1 o2 = true ↔ o1 = o2.
Proof.
  destruct o1 as [c1 v1], o2 as [c2 v2]. unfold valueEqual. simpl.
  rewrite andb_true_iff, bool_decide_eq_true, strict_equal_true.
  split; [by intros [-> ->]|by intros [= -> ->]].
Qed.

Lemma equal_true h a b :
  equal h a b = Some true ↔
  ∃ o1 o2, instance h a = Some o1 ∧ instance h b = Some o2 ∧ (a = b ∨ o1 = o2).
Proof.
  unfold equal. destruct (instance h a) as [o1|]; simpl;
    [|split; [done|by intros (? & ? & ? & _)]].
  destruct (instance h b) as [o2|]; simpl;
    [|split; [done|by intros (? & ? & _ & ? & _)]].
  split.
  - intros [= H]. apply orb_true_iff in H. exists o1, o2. repeat split.
    destruct H as [H|H]; [left; by apply bool_decide_eq_true in H|right; by apply valueEqual_true].
  - intros (? & ? & [= <-] & [= <-] & H). f_equal. apply orb_true_iff.
    destruct H as [->|H]; [left; by apply bool_decide_eq_true|right; by apply valueEqual_true].
Qed.

(** X3: on objects of the heap, [equal] is an equivalence: every object
    equals itself, the answer does not depend on which of the two objects
    the method is called on, and two objects equal to a third are equal. *)
Theorem equal_is_an_equivalence h a b c :
  is_Some (instance h a) → is_Some (instance h b) → is_Some (instance h c) →
  equal h a a = Some true
  ∧ equal h a b = equal h b a
  ∧ (equal h a b = Some true → equal h b c = Some true → equal h a c = Some true).
Proof.
  intros [oa Ha] [ob Hb] [oc Hc]. repeat split.
  - apply equal_true. exists oa, oa. auto.
  - unfold equal. rewrite Ha, Hb. simpl. f_equal.
    destruct (decide (a = b)) as [->|Hne].
    + by rewrite !bool_decide_eq_true_2.
    + rewrite !bool_decide_eq_false_2 by done. simpl.
      apply eq_true_iff_eq. rewrite !valueEqual_true. split; congruence.
  - rewrite !equal_true. intros (o1 & o2 & H1 & H2 & H12) (o2' & o3 & H2' & H3 & H23).
    exists o1, o3. repeat split; try done.
    rewrite H2 in H2'. injection H2' as <-.
    destruct H12 as [-> | ->]; destruct H23 as [-> | ->]; try (by right); try (by left).
    + right. congruence.
    + right. congruence.
Qed.

(** Two distinct numbers with the value 7, and a third with the value 8. *)
Lemma equal_is_an_equivalence_witness :
  equal three_numbers 0 0 = Some true
  ∧ equal three_numbers 0 1 = equal three_numbers 1 0
  ∧ (equal three_numbers 0 1 = Some true → equal three_numbers 1 2 = Some true →
     equal three_numbers 0 2 = Some true).
Proof.
  apply (equal_is_an_equivalence three_numbers 0 1 2); by eexists.
Defined.

Lemma instance_app_l h cell a o : instance h a = Some o → instance (h ++ [cell]) a = Some o.
Proof.
  unfold instance. destruct (h !! a) as [x|] eqn:Hx; [|done].
  intros H. by rewrite (lookup_app_l_Some _ _ _ _ Hx).
Qed.

Lemma instance_new h c v : instance (h ++ [Instance c v]) (length h) = Some (c, v).
Proof. unfold instance. by rewrite lookup_app_r, Nat.sub_diag by lia. Qed.

(** [MalSymbol.get] keeps the table of tokens sound, keeps the objects and
    the entries there are, and returns the token now stored for the name. *)
Lemma MalSymbol_get_interned h map name token h' map' :
  interned h map →
  MalSymbol_get h map name = (token, h', map') →
  interned h' map'
  ∧ map' !! name = Some token
  ∧ instance h' token = Some (CMalSymbol, JsString name)
  ∧ (∀ a o, instance h a = Some o → instance h' a = Some o)
  ∧ (∀ n t, map !! n = Some t → map' !! n = Some t).
Proof.
  intros Hint. unfold MalSymbol_get.
  destruct (map !! name) as [t|] eqn:Hlook.
  - intros [= <- <- <-]. repeat split; auto.
  - simpl. intros [= <- <- <-]. repeat split.
    + intros n t. rewrite lookup_insert. case_decide as Hn.
      * intros [= <-]. subst. apply instance_new.
      * intros Ht. apply instance_app_l. by apply Hint.
    + by rewrite lookup_insert_eq.
    + apply instance_new.
    + intros a o. apply instance_app_l.
    + intros n t Ht. rewrite lookup_insert_ne; [done|]. intros ->. congruence.
Qed.

(** X4: [MalSymbol.get] interns symbols. From a table in which every name
    maps to a symbol object of that name, two calls return the same object
    exactly when the names are the same, [equal] on the two tokens says
    whether the names are the same, and asking again for either name
    returns the same token and creates nothing. *)
Theorem MalSymbol_get_is_canonical h map a b :
  interned h map →
  let '(t1, h1, map1) := MalSymbol_get h map a in
  let '(t2, h2, map2) := MalSymbol_get h1 map1 b in
  interned h2 map2
  ∧ (t1 = t2 ↔ a = b)
  ∧ equal h2 t1 t2 = Some (bool_decide (a = b))
  ∧ MalSymbol_get h2 map2 a = (t1, h2, map2)
  ∧ MalSymbol_get h2 map2 b = (t2, h2, map2).
Proof.
  intros Hint.
  destruct (MalSymbol_get h map a) as [[t1 h1] map1] eqn:E1.
  destruct (MalSymbol_get h1 map1 b) as [[t2 h2] map2] eqn:E2.
  destruct (MalSymbol_get_interned _ _ _ _ _ _ Hint E1) as (Hint1 & Hm1 & Hi1 & Hk1 & _).
  destruct (MalSymbol_get_interned _ _ _ _ _ _ Hint1 E2) as (Hint2 & Hm2 & Hi2 & Hk2 & Hmm).
  pose proof (Hk2 _ _ Hi1) as Hi1'. pose proof (Hmm _ _ Hm1) as Hm1'.
  assert (Hiff : t1 = t2 ↔ a = b).
  { split.
    - intros ->. rewrite Hi1' in Hi2. by injection Hi2.
    - intros ->. rewrite Hm1' in Hm2. by injection Hm2. }
  repeat split; try done; try apply Hiff.
  - unfold equal. rewrite Hi1', Hi2. simpl. f_equal. unfold valueEqual. simpl.
    destruct (decide (a = b)) as [->|Hne].
    + rewrite (bool_decide_eq_true_2 (b = b)) by done.
      rewrite (bool_decide_eq_true_2 (t1 = t2)); [done|]. by apply Hiff.
    + rewrite (bool_decide_eq_false_2 (a = b)) by done.
      rewrite (bool_decide_eq_false_2 (t1 = t2)) by (by rewrite Hiff).
      done.
  - unfold MalSymbol_get. by rewrite Hm1'.
  - unfold MalSymbol_get. by rewrite Hm2.
Qed.

(** The first two symbols of a program, [def!] and [a]. *)
Lemma MalSymbol_get_is_canonical_witness :
  let '(t1, h1, map1) := MalSymbol_get [] ∅ "def!" in
  let '(t2, h2, map2) := MalSymbol_get h1 map1 "a" in
  interned h2 map2
  ∧ (t1 = t2 ↔ "def!" = "a")
  ∧ equal h2 t1 t2 = Some (bool_decide ("def!" = "a"))
  ∧ MalSymbol_get h2 map2 "def!" = (t1, h2, map2)
  ∧ MalSymbol_get h2 map2 "a" = (t2, h2, map2).
Proof.
  apply (MalSymbol_get_is_canonical [] ∅ "def!" "a").
  intros name token H. by rewrite lookup_empty in H.
Defined.

Lemma slice_in_range (items : list JsValue) (i c : nat) :
  (i ≤ length items)%nat →
  slice items (Z.of_nat i) (Z.of_nat i + Z.of_nat c) = take c (drop i items).
Proof.
  intros Hi. unfold slice, slice_index.
  rewrite !bool_decide_eq_false_2 by lia.
  rewrite (Z.min_l (Z.of_nat i)) by lia. rewrite Nat2Z.id.
  destruct (decide (i + c ≤ length items)%nat) as [Hle|Hgt].
  - rewrite Z.min_l by lia. replace (Z.to_nat (Z.of_nat i + Z.of_nat c) - i) with c by lia. done.
  - rewrite Z.min_r by lia. rewrite Nat2Z.id.
    rewrite !take_ge; [done| |]; rewrite length_drop; lia.
Qed.

(** The chunks from the index [i]: chunk [k] holds the elements from
    [i + k * c] on. *)
Lemma group_from_lookup fuel (items : list JsValue) (c i : nat) :
  (0 < c)%nat → (length items ≤ i + fuel * c)%nat →
  ∃ chunks,
    group_from fuel items (Z.of_nat c) (Z.of_nat i) = Some chunks
    ∧ ∀ k, chunks !! k
           = if bool_decide (i + k * c < length items)%nat
             then Some (take c (drop (i + k * c) items)) else None.
Proof.
  intros Hc. revert i. induction fuel as [|fuel IH]; intros i Hfuel; simpl.
  - rewrite bool_decide_eq_false_2 by lia. exists []. split; [done|].
    intros k. rewrite bool_decide_eq_false_2 by lia. done.
  - case_bool_decide as Hi.
    + destruct (IH (i + c)) as (chunks & Hrun & Hlook); [lia|].
      replace (Z.of_nat i + Z.of_nat c)%Z with (Z.of_nat (i + c)) by lia.
      rewrite Hrun. simpl. eexists. split; [done|].
      intros [|k]; simpl.
      * rewrite bool_decide_eq_true_2 by lia. rewrite Nat.add_0_r.
        f_equal. replace (Z.of_nat (i + c)) with (Z.of_nat i + Z.of_nat c)%Z by lia.
        apply slice_in_range. lia.
      * rewrite Hlook. replace (i + c + k * c) with (i + (c + k * c)) by lia. done.
    + exists []. split; [done|]. intros k. rewrite bool_decide_eq_false_2 by lia. done.
Qed.

Lemma concat_chunks (items : list JsValue) (c i : nat) chunks :
  (0 < c)%nat →
  (∀ k, chunks !! k
        = if bool_decide (i + k * c < length items)%nat
          then Some (take c (drop (i + k * c) items)) else None) →
  concat chunks = drop i items.
Proof.
  intros Hc. revert i. induction chunks as [|ch chunks IH]; intros i Hlook; simpl.
  - specialize (Hlook 0). simpl in Hlook. case_bool_decide; [done|].
    rewrite drop_ge; [done|lia].
  - pose proof (Hlook 0) as Hfirst. simpl in Hfirst. case_bool_decide; [|done].
    injection Hfirst as ->. rewrite Nat.add_0_r.
    rewrite (IH (i + c)).
    + rewrite <- drop_drop. apply take_drop.
    + intros k. specialize (Hlook (S k)). simpl in Hlook. rewrite Hlook.
      replace (i + (c + k * c)) with (i + c + k * c) by lia. done.
Qed.

(** X5: [group(chunkSize)] with a positive chunk size, run to its end on
    a List, cuts the elements into consecutive chunks: the chunks put one
    after the other give the elements back, chunk [k] holds the elements
    from index [k * chunkSize] on, no chunk is empty, every chunk but the
    last has exactly [chunkSize] elements, and there are as many chunks as
    the length divided by the chunk size, rounded up. The loop needs one
    round for each chunk. *)
Theorem group_splits_into_chunks fuel h s (items : list JsValue) (c : nat) :
  sequence h CMalList s items →
  (0 < c)%nat →
  (length items ≤ fuel * c)%nat →
  ∃ chunks,
    group fuel h s (Z.of_nat c) = Some chunks
    ∧ concat chunks = items
    ∧ (∀ k chunk, chunks !! k = Some chunk →
         chunk = take c (drop (k * c) items) ∧ (0 < length chunk ≤ c)%nat)
    ∧ (∀ k, (S k < length chunks)%nat → length <$> chunks !! k = Some c)
    ∧ (length chunks * c < length items + c)%nat
    ∧ (length items ≤ length chunks * c)%nat.
Proof.
  intros (value & Hs & Harr & _) Hc Hfuel.
  destruct (group_from_lookup fuel items c 0 Hc) as (chunks & Hrun & Hlook); [lia|].
  exists chunks. unfold group. rewrite Hs. simpl. rewrite Harr. simpl.
  change 0%Z with (Z.of_nat 0). split; [done|].
  assert (Hlen : ∀ k, (k < length chunks)%nat ↔ (k * c < length items)%nat).
  { intros k. rewrite <- lookup_lt_is_Some, Hlook. simpl.
    case_bool_decide; split; intros Hx; first [done | lia | by eexists | by destruct Hx]. }
  split; [by rewrite (concat_chunks items c 0 chunks Hc Hlook)|].
  split; [|split; [|split]].
  - intros k chunk. rewrite Hlook. simpl. case_bool_decide as Hk; [|done].
    intros [= <-]. split; [done|]. rewrite length_take, length_drop. lia.
  - intros k Hk. rewrite Hlook. simpl.
    apply Hlen in Hk. rewrite bool_decide_eq_true_2 by lia. simpl.
    f_equal. rewrite length_take, length_drop. lia.
  - destruct (length chunks) as [|n] eqn:E; [lia|].
    assert (n * c < length items)%nat by (apply Hlen; lia). lia.
  - destruct (decide (length items ≤ length chunks * c)%nat); [done|].
    assert (length chunks < length chunks)%nat by (apply Hlen; lia). lia.
Qed.

Lemma list_of_three_sequence :
  sequence list_of_three CMalList 4 [JsObject 0; JsObject 1; JsObject 2].
Proof.
  exists (JsObject 3). split; [reflexivity|]. split; [reflexivity|].
  repeat constructor; by eexists.
Qed.

(** A List of three elements in pairs, as [let*] groups its bindings. *)
Lemma group_splits_into_chunks_witness :
  ∃ chunks,
    group 2 list_of_three 4 (Z.of_nat 2) = Some chunks
    ∧ concat chunks = [JsObject 0; JsObject 1; JsObject 2]
    ∧ (∀ k chunk, chunks !! k = Some chunk →
         chunk = take 2 (drop (k * 2) [JsObject 0; JsObject 1; JsObject 2])
         ∧ (0 < length chunk ≤ 2)%nat)
    ∧ (∀ k, (S k < length chunks)%nat → length <$> chunks !! k = Some 2)
    ∧ (length chunks * 2 < length [JsObject 0; JsObject 1; JsObject 2] + 2)%nat
    ∧ (length [JsObject 0; JsObject 1; JsObject 2] ≤ length chunks * 2)%nat.
Proof.
  apply (group_splits_into_chunks 2 list_of_three 4 [JsObject 0; JsObject 1; JsObject 2] 2
           list_of_three_sequence); simpl; lia.
Defined.

(** X6: [group(chunkSize)] with a chunk size of zero or less never comes
    to the end of a List that has an element: the index does not advance,
    and however many rounds the loop is given, the chunks are not
    complete. *)
Theorem group_never_finishes fuel h s (items : list JsValue) (c : Z) :
  sequence h CMalList s items →
  (c ≤ 0)%Z → items ≠ [] →
  group fuel h s c = None.
Proof.
  intros (value & Hs & Harr & _) Hc Hne. unfold group. rewrite Hs. simpl. rewrite Harr. simpl.
  assert (H : ∀ i, (i ≤ 0)%Z → group_from fuel items c i = None).
  { induction fuel as [|fuel IH]; intros i Hi; simpl.
    - rewrite bool_decide_eq_true_2; [done|]. destruct items; [done|]. simpl. lia.
    - rewrite bool_decide_eq_true_2; [|destruct items; [done|]; simpl; lia].
      rewrite IH by lia. done. }
  by apply H.
Qed.

Lemma group_never_finishes_witness : group 1000 list_of_three 4 0 = None.
Proof.
  apply (group_never_finishes 1000 list_of_three 4 [JsObject 0; JsObject 1; JsObject 2] 0
           list_of_three_sequence); [lia|discriminate].
Defined.

End TypesMore.

(* ===================================================================== *)
(** ** Further properties of the checker *)
(* ===================================================================== *)

Lemma checkMalType_outcome instance excepted unexcepted st :
  checkMalType instance excepted unexcepted st
  = check_outcome (existsb (isInstance instance) excepted
                   && forallb (λ c, negb (isInstance instance c)) unexcepted)
      instance excepted st.
Proof.
  unfold checkMalType, check_outcome.
  assert (H1 : forallb (λ c, negb (isInstance instance c)) excepted
               = negb (existsb (isInstance instance) excepted)).
  { induction excepted as [|c l IH]; simpl; [done|]. rewrite IH. by destruct (isInstance _ c). }
  assert (H2 : existsb (λ c, isInstance instance c) unexcepted
               = negb (forallb (λ c, negb (isInstance instance c)) unexcepted)).
  { induction unexcepted as [|c l IH]; simpl; [done|]. rewrite IH. by destruct (isInstance _ c). }
  rewrite H1, H2.
  by destruct (existsb _ excepted), (forallb _ unexcepted).
Qed.

Lemma checkMalType_expected instance excepted st :
  checkMalType instance excepted [] st
  = if existsb (isInstance instance) excepted then Return () st
    else throw_new (MalUnexpectedTokenType instance excepted) st.
Proof.
  rewrite checkMalType_outcome. simpl. by rewrite andb_true_r.
Qed.

Lemma checkMalInnerParameters_fails symbol parameters n st :
  length parameters ≠ n →
  checkMalInnerParameters symbol parameters n st
  = throw_new (MalParametersError symbol (length parameters) n) st.
Proof.
  intros H. unfold checkMalInnerParameters. by rewrite bool_decide_eq_true_2.
Qed.

Lemma checkMalInnerParameters_cases symbol parameters n st :
  (length parameters = n ∧ checkMalInnerParameters symbol parameters n st = Return () st)
  ∨ (length parameters ≠ n
     ∧ checkMalInnerParameters symbol parameters n st
       = throw_new (MalParametersError symbol (length parameters) n) st).
Proof.
  unfold checkMalInnerParameters. case_bool_decide as H; [by right|left].
  split; [|done]. by destruct (decide (length parameters = n)).
Qed.

(** X7: each [checkMalTypeIs...] of the checker agrees with the predicate
    [isMal...] of the same name: it returns, and changes nothing, when the
    predicate holds, and throws a new [MalUnexpectedTokenType] for the
    instance when it does not. [checkMalTypeIsMalSequential] accepts Lists
    and Vectors and reports the class MalVector; [checkMalTypeIsMalVector]
    rejects a List. *)
Theorem checks_agree_with_predicates instance st :
  checkMalTypeIsMalSymbol instance st
  = check_outcome (isMalSymbol instance) instance [ClsMalSymbol] st
  ∧ checkMalTypeIsMalList instance st
    = check_outcome (isMalList instance) instance [ClsMalList] st
  ∧ checkMalTypeIsMalVector instance st
    = check_outcome (isMalVector instance) instance [ClsMalVector] st
  ∧ checkMalTypeIsMalSequential instance st
    = check_outcome (isMalSequential instance) instance [ClsMalVector] st
  ∧ checkMalTypeIsMalFunction instance st
    = check_outcome (isMalFunction instance) instance [ClsMalFunction] st
  ∧ checkMalTypeIsMalNativeFunction instance st
    = check_outcome (isMalNativeFunction instance) instance [ClsMalNativeFunction] st
  ∧ checkMalTypeIsFunction instance st
    = check_outcome (isMalFunction instance || isMalNativeFunction instance) instance
        [ClsMalFunction; ClsMalNativeFunction] st
  ∧ checkMalTypeIsMalString instance st
    = check_outcome (isMalString instance) instance [ClsMalString] st
  ∧ checkMalTypeIsMalAtom instance st
    = check_outcome (isMalAtom instance) instance [ClsMalAtom] st
  ∧ checkMalTypeIsMalHashMap instance st
    = check_outcome (isMalHashMap instance) instance [ClsMalHashMap] st
  ∧ checkMalTypeIsMalError instance st
    = check_outcome (isMalError instance) instance [ClsMalError] st
  ∧ checkMalTypeIsMalType instance st
    = check_outcome (isMalType instance) instance [ClsMalType] st.
Proof.
  repeat split;
    match goal with |- ?c _ _ = _ => unfold c end;
    rewrite checkMalType_outcome; simpl; f_equal;
    rewrite ?orb_false_r, ?andb_true_r; reflexivity.
Qed.

Lemma isRestMalSymbol_true b : isRestMalSymbol b = true ↔ b = MalSymbol "&".
Proof.
  unfold isRestMalSymbol. split.
  - intros H. apply andb_true_iff in H as [Hs Hn]. apply bool_decide_eq_true in Hn.
    destruct b; try done. simpl in Hn. by subst.
  - by intros ->.
Qed.

Lemma checkMalTypeIsMalSymbol_outcome b st :
  checkMalTypeIsMalSymbol b st
  = if isMalSymbol b then Return () st
    else throw_new (MalUnexpectedTokenType b [ClsMalSymbol]) st.
Proof.
  unfold checkMalTypeIsMalSymbol. rewrite checkMalType_expected. simpl.
  unfold isMalSymbol. by rewrite orb_false_r.
Qed.

Lemma checkMalTypeIsMalSequential_outcome b st :
  checkMalTypeIsMalSequential b st
  = if isMalSequential b then Return () st
    else throw_new (MalUnexpectedTokenType b [ClsMalVector]) st.
Proof.
  unfold checkMalTypeIsMalSequential. rewrite checkMalType_expected. simpl.
  unfold isMalSequential. by rewrite orb_false_r.
Qed.

(** The loop of [checkMalBindings] has come down to the binding [b], the
    last of those still to check. *)
Lemma checkMalBindings_from_snoc bindings (l : list MalType) b st :
  checkMalBindings_from bindings (rev (l ++ [b])) st
  = if isMalSymbol b then
      if isRestMalSymbol b
         && negb (bool_decide (length l + 2 = length (seq_items bindings)))
      then throw_new (MalInvalidRestParameter bindings) st
      else checkMalBindings_from bindings (rev l) st
    else throw_new (MalUnexpectedTokenType b [ClsMalSymbol]) st.
Proof.
  rewrite rev_app_distr. simpl. unfold bind.
  rewrite checkMalTypeIsMalSymbol_outcome, length_rev.
  destruct (isMalSymbol b); [|done]. by destruct (isRestMalSymbol b && _).
Qed.

Lemma checkMalBindings_from_accepts bindings (l : list MalType) st :
  (checkMalBindings_from bindings (rev l) st = Return () st
   ↔ well_formed_bindings l (length (seq_items bindings)))
  ∧ (∃ k, checkMalBindings_from bindings (rev l) st = Return () st
          ∨ checkMalBindings_from bindings (rev l) st = throw_new k st).
Proof.
  induction l as [|b l [IH1 IH2]] using rev_ind.
  - simpl. split; [|exists (UnboundSymbol ""); by left].
    split; [|done]. intros _. split; [constructor|]. intros i. by rewrite lookup_nil.
  - rewrite !checkMalBindings_from_snoc.
    destruct (isMalSymbol b) eqn:Hsym.
    + destruct (isRestMalSymbol b && _) eqn:Hrest.
      * split; [|eexists; by right]. split; [done|].
        intros [_ Hamp]. apply andb_true_iff in Hrest as [Hb Hidx].
        apply isRestMalSymbol_true in Hb as ->.
        apply negb_true_iff, bool_decide_eq_false in Hidx.
        destruct Hidx. apply Hamp. by rewrite lookup_app_r, Nat.sub_diag by lia.
      * split; [|done]. rewrite IH1. unfold well_formed_bindings.
        rewrite Forall_app, Forall_singleton.
        split.
        -- intros [Hall Hamp]. split; [done|]. intros i Hi.
           destruct (decide (i < length l)%nat) as [Hlt|Hge].
           ++ apply Hamp. by rewrite lookup_app_l in Hi.
           ++ rewrite lookup_app_r in Hi by lia.
              destruct (i - length l) as [|n] eqn:E; [|done]. simpl in Hi.
              injection Hi as ->. assert (i = length l) as -> by lia.
              apply andb_false_iff in Hrest as [Hr|Hr]; [done|].
              by apply negb_false_iff, bool_decide_eq_true in Hr.
        -- intros [[Hall _] Hamp]. split; [done|]. intros i Hi. apply Hamp.
           rewrite lookup_app_l; [done|]. by eapply lookup_lt_Some.
    + split; [|eexists; by right]. split; [done|].
      intros [Hall _]. rewrite Forall_app, Forall_singleton in Hall.
      destruct Hall as [_ Hb]. congruence.
Qed.

(** What the loop of [checkMalBindings] throws: [MalUnexpectedTokenType]
    for a binding that is no symbol, or [MalInvalidRestParameter] for the
    parameter list. *)
Lemma checkMalBindings_from_throws bindings (l : list MalType) st :
  checkMalBindings_from bindings (rev l) st = Return () st
  ∨ (∃ b, b ∈ l ∧ isMalSymbol b = false
          ∧ checkMalBindings_from bindings (rev l) st
            = throw_new (MalUnexpectedTokenType b [ClsMalSymbol]) st)
  ∨ ((∃ i, l !! i = Some (MalSymbol "&") ∧ i + 2 ≠ length (seq_items bindings))
     ∧ checkMalBindings_from bindings (rev l) st
       = throw_new (MalInvalidRestParameter bindings) st).
Proof.
  induction l as [|b l IH] using rev_ind; [by left|].
  rewrite checkMalBindings_from_snoc.
  destruct (isMalSymbol b) eqn:Hsym.
  - destruct (isRestMalSymbol b && _) eqn:Hrest.
    + right. right. split; [|done].
      apply andb_true_iff in Hrest as [Hb Hidx].
      apply isRestMalSymbol_true in Hb as ->.
      apply negb_true_iff, bool_decide_eq_false in Hidx.
      exists (length l). split; [|done]. by rewrite lookup_app_r, Nat.sub_diag by lia.
    + destruct IH as [IH | [(b' & Hin & Hb' & IH) | [(i & Hi & Hne) IH]]].
      * by left.
      * right. left. exists b'. split; [|done]. apply elem_of_app. by left.
      * right. right. split; [|done]. exists i. split; [|done].
        apply lookup_app_l_Some. exact Hi.
  - right. left. exists b. split; [|done]. apply elem_of_app. right. constructor.
Qed.

(** X8: [checkMalBindings] accepts a parameter list exactly when it is a
    List or a Vector, each of its elements is a symbol, and the symbol [&]
    stands nowhere but at the last position but one; it changes nothing
    when it returns. In every other case it throws a new Error:
    [MalUnexpectedTokenType] for the parameter list when it is neither a
    List nor a Vector, [MalUnexpectedTokenType] for an element that is no
    symbol, or [MalInvalidRestParameter] for the parameter list when an
    [&] stands elsewhere. *)
Theorem checkMalBindings_accepts symbol bindings st :
  (checkMalBindings symbol bindings st = Return () st
   ↔ isMalSequential bindings = true
     ∧ well_formed_bindings (seq_items bindings) (length (seq_items bindings)))
  ∧ (checkMalBindings symbol bindings st = Return () st
     ∨ (isMalSequential bindings = false
        ∧ checkMalBindings symbol bindings st
          = throw_new (MalUnexpectedTokenType bindings [ClsMalVector]) st)
     ∨ (∃ b, b ∈ seq_items bindings ∧ isMalSymbol b = false
             ∧ checkMalBindings symbol bindings st
               = throw_new (MalUnexpectedTokenType b [ClsMalSymbol]) st)
     ∨ ((∃ i, seq_items bindings !! i = Some (MalSymbol "&")
              ∧ i + 2 ≠ length (seq_items bindings))
        ∧ checkMalBindings symbol bindings st
          = throw_new (MalInvalidRestParameter bindings) st)).
Proof.
  unfold checkMalBindings, bind.
  rewrite checkMalTypeIsMalSequential_outcome.
  destruct (isMalSequential bindings).
  - destruct (checkMalBindings_from_accepts bindings (seq_items bindings) st) as [H1 _].
    split; [rewrite H1; split; [done|by intros [_ ?]]|].
    destruct (checkMalBindings_from_throws bindings (seq_items bindings) st)
      as [H | [H | H]]; auto.
  - split; [|right; by left]. split; [done|]. by intros [? _].
Qed.

(* ===================================================================== *)
(** ** Further properties of the evaluator *)
(* ===================================================================== *)

Section ArityFacts.

Variable EVAL : MalType → nat → M MalType.
Variable call_rec : MalType → list MalType → M MalType.
Variable fuel : nat.
Variable core_call :
  (MalType → list MalType → M MalType) → string → list MalType → M MalType.

(** X9: every special form checks the number of its arguments before
    anything else: with a wrong number it throws a new
    [MalParametersError] that names the form's own symbol, the number
    given and the number expected, and nothing is evaluated or bound.
    [if] takes two or three arguments and reports three as expected;
    [do] without arguments throws [MalMultipleParametersError]. *)
Theorem special_forms_check_arity_first env args st :
  (length args ≠ 2 →
   DEF EVAL env args st = throw_new (MalParametersError Symbols.Def (length args) 2) st
   ∧ LET EVAL env args st = throw_new (MalParametersError Symbols.Let (length args) 2) st
   ∧ FN env args st = throw_new (MalParametersError Symbols.Fn (length args) 2) st
   ∧ DEFMACRO EVAL env args st
     = throw_new (MalParametersError Symbols.Defmacro (length args) 2) st
   ∧ TRY EVAL env args st = throw_new (MalParametersError Symbols.Try (length args) 2) st)
  ∧ (length args ≠ 1 →
     QUOTE env args st = throw_new (MalParametersError Symbols.Quote (length args) 1) st
     ∧ QUASIQUOTE env args st
       = throw_new (MalParametersError Symbols.Quasiquote (length args) 1) st
     ∧ EVALFUNC EVAL env args st
       = throw_new (MalParametersError Symbols.Eval (length args) 1) st
     ∧ MACROEXPAND EVAL call_rec fuel core_call env args st
       = throw_new (MalParametersError Symbols.Macroexpand (length args) 1) st)
  ∧ (length args ≠ 2 → length args ≠ 3 →
     IF EVAL env args st = throw_new (MalParametersError Symbols.If (length args) 3) st)
  ∧ (args = [] →
     DO EVAL env args st = throw_new (MalMultipleParametersError Symbols.Do 0 1) st).
Proof.
  repeat split; intros;
    try (unfold DEF, LET, FN, DEFMACRO, TRY, QUOTE, QUASIQUOTE, EVALFUNC, MACROEXPAND,
           bind;
         by rewrite checkMalInnerParameters_fails by done).
  - unfold IF, bind. rewrite bool_decide_eq_false_2 by done.
    by rewrite checkMalInnerParameters_fails by done.
  - by subst.
Qed.

End ArityFacts.

Lemma TRY_starts_with_checkCatchAst EVAL env a catchAst st e st' :
  checkCatchAst catchAst st = Throw e st' →
  TRY EVAL env [a; catchAst] st = Throw e st'.
Proof. intros H. unfold TRY, bind. simpl. unfold item. simpl. by rewrite H. Qed.

(** X10: [try*] checks its handler before it evaluates anything. When
    the second argument is not a List, or a List that does not start with
    the symbol [catch*], the host value [false] is thrown, which is no
    Error; when the handler has not exactly a symbol and a body after
    [catch*], a [MalParametersError] for [catch*] is thrown. The guarded
    form is not evaluated in either case. *)
Theorem TRY_checks_handler_first EVAL env a catchAst st :
  (isMalList catchAst = false ∨ isMalSymbolCatch (item 0 (seq_items catchAst)) = false →
   TRY EVAL env [a; catchAst] st = Throw JsFalse st)
  ∧ (isMalList catchAst = true → isMalSymbolCatch (item 0 (seq_items catchAst)) = true →
     length (seq_items catchAst) ≠ 3 →
     TRY EVAL env [a; catchAst] st
     = throw_new (MalParametersError Symbols.Catch (length (seq_items catchAst) - 1) 2) st)
  ∧ isMalError JsFalse = false.
Proof.
  repeat split.
  - intros H. apply TRY_starts_with_checkCatchAst. unfold checkCatchAst.
    destruct (isMalList catchAst); simpl; [|done].
    destruct H as [H|H]; [done|]. by rewrite H.
  - intros Hl Hs Hlen. apply TRY_starts_with_checkCatchAst. unfold checkCatchAst.
    rewrite Hl, Hs. simpl. unfold bind.
    rewrite checkMalInnerParameters_fails; rewrite length_drop; [done|lia].
Qed.

Lemma mapM_id {A} (f : A → M A) (l : list A) st :
  Forall (λ x, ∀ st, f x st = Return x st) l → mapM f l st = Return l st.
Proof.
  induction 1 as [|x l Hx _ IH]; simpl; [done|].
  unfold bind. by rewrite Hx, IH.
Qed.

Lemma mapM_length {A B} (f : A → M B) l st r st' :
  mapM f l st = Return r st' → length r = length l.
Proof.
  revert st r. induction l as [|x l IH]; intros st r; simpl.
  - by intros [= <- _].
  - unfold bind. destruct (f x st) as [y st1| |]; try done.
    destruct (mapM f l st1) as [ys st2| |] eqn:E; try done.
    intros [= <- <-]. simpl. f_equal. by eapply IH.
Qed.

Lemma mapM_keys (f : MalType → M MalType) (entries : list (MalType * MalType)) st r st' :
  mapM (λ kv, value <- f kv.2 ;; ret (kv.1, value)) entries st = Return r st' →
  r.*1 = entries.*1.
Proof.
  revert st r. induction entries as [|[k v] l IH]; intros st r; simpl.
  - by intros [= <- _].
  - unfold bind at 1 2. simpl. destruct (f v st) as [y st1| |]; try done. simpl.
    unfold bind at 1.
    destruct (mapM _ l st1) as [ys st2| |] eqn:E; try done.
    intros [= <- <-]. simpl. f_equal. by eapply IH.
Qed.

Lemma EVAL_NOT_CATCH_not_list core_call n ast env :
  isMalList ast = false →
  EVAL_NOT_CATCH core_call (S n) ast env
  = EVAL_AST (EVAL core_call n) ast env.
Proof.
  intros H. rewrite EVAL_NOT_CATCH_S. unfold EVAL_NOT_CATCH_step. by rewrite H.
Qed.

Lemma EVAL_returns core_call n ast env st v st' :
  EVAL_NOT_CATCH core_call n ast env st = Return v st' →
  EVAL core_call n ast env st = Return v st'.
Proof. intros H. unfold EVAL, EVAL_with, try_catch. by rewrite H. Qed.

Lemma depth_vector_item items x :
  x ∈ items → (depth x < depth (MalVector items))%nat.
Proof.
  simpl. induction 1; simpl; lia.
Qed.

Lemma depth_hashmap_value entries k v :
  (k, v) ∈ entries → (depth v < depth (MalHashMap entries))%nat.
Proof.
  simpl. induction entries as [|[k' v'] entries IH]; intros H.
  - by apply elem_of_nil in H.
  - apply elem_of_cons in H as [[= <- <-]|H]; simpl; [lia|]. specialize (IH H). lia.
Qed.

(** X11: data evaluates to itself. A term built from numbers, strings,
    keywords, booleans, nil, functions, atoms and Errors with Vectors and
    HashMaps, with no symbol and no List among the elements and values,
    is returned by [EVAL] as it is, in any environment, and the state is
    left as it was; the evaluator needs one nested call for each level of
    nesting. *)
Theorem data_evaluates_to_itself core_call fuel t env st :
  is_data t = true → (depth t ≤ fuel)%nat →
  EVAL core_call fuel t env st = Return t st.
Proof.
  revert t st. induction fuel as [|n IH]; intros t st Hdata Hdepth.
  { destruct t; simpl in Hdepth; lia. }
  apply EVAL_returns.
  destruct t; try done; rewrite EVAL_NOT_CATCH_not_list by done; simpl in *.
  - unfold bind. rewrite mapM_id; [done|].
    apply Forall_forall. intros x Hx st1. apply IH.
    + rewrite forallb_forall in Hdata. apply Hdata. by apply list_elem_of_In.
    + pose proof (depth_vector_item _ _ Hx). simpl in *. lia.
  - unfold bind.
    assert (H : ∀ st1, mapM (λ kv, value <- EVAL core_call n kv.2 env ;; ret (kv.1, value))
                  entries st1 = Return entries st1).
    { intros st1. apply mapM_id. apply Forall_forall. intros [k v] Hx st2. simpl.
      unfold bind. rewrite IH; [done| |].
      - rewrite forallb_forall in Hdata. apply (Hdata (k, v)). by apply list_elem_of_In.
      - pose proof (depth_hashmap_value _ _ _ Hx). simpl in *. lia. }
    by rewrite H.
Qed.

(** [[1 {:k ["s" nil]}]] *)
Lemma data_evaluates_to_itself_witness :
  EVAL core_spec 4 data_example GlobalEnv empty_state = Return data_example empty_state.
Proof.
  apply (data_evaluates_to_itself core_spec 4 data_example GlobalEnv empty_state);
    [reflexivity|simpl; lia].
Defined.

(** X12: [(quote x)], when [quote] is not bound to a macro, returns [x]
    as it stands, not evaluated, and leaves the state as it was. *)
Theorem quote_returns_argument core_call fuel env x st :
  isMacroFunction env (quoted x) st = Return false st →
  EVAL core_call (S fuel) (quoted x) env st = Return x st.
Proof.
  intros Hm. apply EVAL_returns. unfold quoted in *.
  rewrite EVAL_NOT_CATCH_special_form by done. reflexivity.
Qed.

(** [(quote (f 1))] where [f] is a function: the call is not made. *)
Lemma quote_returns_argument_witness :
  EVAL core_spec 1 (quoted (MalList [MalSymbol "f"; MalNumber 1])) GlobalEnv function_state
  = Return (MalList [MalSymbol "f"; MalNumber 1]) function_state.
Proof.
  apply (quote_returns_argument core_spec 0 GlobalEnv (MalList [MalSymbol "f"; MalNumber 1])
           function_state).
  vm_compute. reflexivity.
Defined.

(** X13: the quasiquote rewrite evaluates nothing and touches no state.
    On every term it either returns, with the state as it was, or throws
    the [MalParametersError] of an [unquote] or a [splice-unquote] that
    was not given exactly one argument. *)
Theorem quasiquote_only_fails_on_unquote_arity ast st :
  pure_or_unquote_arity (quasiquote ast) st.
Proof.
  remember (size ast) as n eqn:Hn. revert ast Hn.
  induction n as [n IH] using lt_wf_ind. intros ast ->.
  destruct ast as [| | | | | |items| | | | | | | | | |]; try (left; by eexists).
  destruct items as [|ast1 astRest]; [left; by eexists|].
  rewrite quasiquote_cons.
  pose proof (size_cons ast1 astRest) as Hs.
  pose proof (size_pos ast1). pose proof (size_pos (MalList astRest)).
  assert (H1 : pure_or_unquote_arity (quasiquote ast1) st)
    by (eapply IH; [|reflexivity]; lia).
  assert (H2 : pure_or_unquote_arity (quasiquote (MalList astRest)) st)
    by (eapply IH; [|reflexivity]; lia).
  unfold pure_or_unquote_arity in *.
  destruct (symbol_equal Symbols.Unquote ast1).
  - unfold bind.
    destruct (checkMalInnerParameters_cases Symbols.Unquote astRest 1 st) as [[_ ->]|[Hne ->]].
    + left. by eexists.
    + right. exists Symbols.Unquote, (length astRest). auto.
  - destruct (is_splice ast1); unfold bind.
    + destruct (checkMalInnerParameters_cases Symbols.SpliceUnquote
                  (drop 1 (seq_items ast1)) 1 st) as [[_ ->]|[Hne ->]].
      * destruct H2 as [[r ->]|(sy & k & Hsy & Hk & ->)]; [left; by eexists|].
        right. by exists sy, k.
      * right. eexists _, _. split; [by right|]. split; [exact Hne|done].
    + destruct H1 as [[r1 ->]|(sy & k & Hsy & Hk & ->)]; [|right; by exists sy, k].
      destruct H2 as [[r ->]|(sy & k & Hsy & Hk & ->)]; [left; by eexists|].
      right. by exists sy, k.
Qed.

Lemma isMacroFunction_of_function st env k args f fo :
  MalEnv.lookup st env k = Some (MalFunction f) →
  functions st !! f = Some fo →
  isMacroFunction env (MalList (MalSymbol k :: args)) st = Return (isMacro fo) st.
Proof.
  intros Hl Hf. unfold isMacroFunction. simpl.
  unfold bind, MalEnv.has, MalEnv.get. simpl.
  rewrite bool_decide_eq_true_2.
  2:{ unfold MalEnv.lookup in Hl. destruct (MalEnv.find st env k); [by eexists|done]. }
  simpl. rewrite Hl. unfold function. by rewrite Hf.
Qed.

(** X14: [defmacro!] marks the function object itself. When the value of
    its second argument is a function, the form returns it, binds the
    symbol to it in the current environment, and from then on every form
    whose head symbol is bound to that same function object, under any
    name and in any environment, is a macro call; no Error is created.
    When the value is anything else, a built-in included, the form throws
    [MalUnexpectedTokenType] and binds nothing. *)
Theorem DEFMACRO_marks_the_shared_function EVAL env k value st v st1 :
  EVAL value env st = Return v st1 →
  match v with
  | MalFunction f =>
      ∃ st2,
        DEFMACRO EVAL env [MalSymbol k; value] st = Return v st2
        ∧ errors st2 = errors st1
        ∧ (is_Some (envs st1 !! env) → MalEnv.lookup st2 env k = Some v)
        ∧ (is_Some (functions st1 !! f) →
           ∀ env' k' args,
             MalEnv.lookup st2 env' k' = Some v →
             isMacroFunction env' (MalList (MalSymbol k' :: args)) st2 = Return true st2)
  | _ => DEFMACRO EVAL env [MalSymbol k; value] st
         = throw_new (MalUnexpectedTokenType v [ClsMalFunction]) st1
  end.
Proof.
  intros H.
  assert (Hrun : DEFMACRO EVAL env [MalSymbol k; value] st
    = match v with
      | MalFunction f =>
          Return v
            (with_envs
               (alter (λ fr, {| outer := outer fr; data := <[k := v]> (data fr) |}) env)
               (with_functions
                  (alter (λ fo, {| f_ast := f_ast fo; f_params := f_params fo;
                                   f_env := f_env fo; isMacro := true |}) f)
                  st1))
      | _ => throw_new (MalUnexpectedTokenType v [ClsMalFunction]) st1
      end).
  { unfold DEFMACRO, bind, item. simpl. rewrite H.
    unfold checkMalTypeIsMalFunction. rewrite checkMalType_expected. by destruct v. }
  destruct v; try exact Hrun.
  eexists. split; [exact Hrun|]. split; [done|]. split.
  - intros [fr Hfr]. eapply lookup_frame.
    + simpl. rewrite list_lookup_alter_eq, Hfr. done.
    + simpl. by rewrite lookup_insert_eq.
  - intros [fo Hfo] env' k' args Hl.
    erewrite isMacroFunction_of_function; [|exact Hl|].
    2:{ simpl. rewrite list_lookup_alter_eq, Hfo. done. }
    done.
Qed.

(** [(defmacro! m f)] after [(def! f (fn* (a) a))]: [(f 1)] has become a
    macro call as well. *)
Lemma DEFMACRO_marks_the_shared_function_witness :
  ∃ st2,
    DEFMACRO (EVAL core_spec 1) GlobalEnv [MalSymbol "m"; MalSymbol "f"] function_state
    = Return (MalFunction 0) st2
    ∧ isMacroFunction GlobalEnv (MalList [MalSymbol "f"; MalNumber 1]) function_state
      = Return false function_state
    ∧ isMacroFunction GlobalEnv (MalList [MalSymbol "f"; MalNumber 1]) st2 = Return true st2
    ∧ isMacroFunction GlobalEnv (MalList [MalSymbol "m"; MalNumber 1]) st2 = Return true st2.
Proof.
  destruct (DEFMACRO_marks_the_shared_function (EVAL core_spec 1) GlobalEnv "m"
              (MalSymbol "f") function_state (MalFunction 0) function_state eq_refl)
    as (st2 & Hrun & _ & Hbound & Hmacro).
  exists st2. split; [exact Hrun|]. split; [reflexivity|].
  assert (Hst2 : Return (MalFunction 0) st2
                 = DEFMACRO (EVAL core_spec 1) GlobalEnv [MalSymbol "m"; MalSymbol "f"]
                     function_state) by (symmetry; exact Hrun).
  vm_compute in Hst2. injection Hst2 as ->.
  split; apply Hmacro; try (by eexists); reflexivity.
Defined.

Lemma special_form_default fuel core_call rec call_rec ast env :
  symbol_name (item 0 (seq_items ast)) ∉ special_symbols →
  special_form fuel core_call rec call_rec ast env = application core_call rec call_rec ast env.
Proof.
  intros H. unfold special_symbols in H. rewrite !not_elem_of_cons in H.
  destruct H as (? & ? & ? & ? & ? & ? & ? & ? & ? & ? & ? & _).
  unfold special_form. by rewrite !bool_decide_eq_false_2 by done.
Qed.

Lemma EVAL_NOT_CATCH_application core_call n head rest env st :
  isMacroFunction env (MalList (head :: rest)) st = Return false st →
  (isMalSymbol head = true → symbol_name head ∉ special_symbols) →
  EVAL_NOT_CATCH core_call (S n) (MalList (head :: rest)) env st
  = application core_call (EVAL_NOT_CATCH core_call n) (CALL core_call n)
      (MalList (head :: rest)) env st.
Proof.
  intros Hm Hs. destruct (isMalSymbol head) eqn:Hsym.
  - rewrite EVAL_NOT_CATCH_special_form by done.
    rewrite special_form_default; [done|]. by apply Hs.
  - rewrite EVAL_NOT_CATCH_S. unfold EVAL_NOT_CATCH_step. simpl. unfold bind at 1.
    rewrite MACROEXPAND_unfold, MACROEXPAND_loop_not_macro by done.
    simpl. unfold item. simpl. by rewrite Hsym.
Qed.

(** X15: calling what is no function throws a host value, not an Error.
    When a List is no macro call and no special form, and its elements
    evaluate to a List whose first element is a Mal value that is neither
    a function nor a built-in, [EVAL] throws the string of [MalType.call]
    for that value; it is no Error, so no Error object is created, no
    trace is extended, and the state is the one the evaluation of the
    elements left. *)
Theorem calling_a_non_function core_call fuel head rest env st func params st1 :
  isMacroFunction env (MalList (head :: rest)) st = Return false st →
  (isMalSymbol head = true → symbol_name head ∉ special_symbols) →
  EVAL_AST (EVAL core_call fuel) (MalList (head :: rest)) env st
  = Return (MalList (func :: params)) st1 →
  isMalType func = true → isMalFunction func = false → isMalNativeFunction func = false →
  EVAL core_call (S fuel) (MalList (head :: rest)) env st = Throw (JsNotCallable func) st1
  ∧ isMalError (JsNotCallable func) = false.
Proof.
  intros Hm Hs Hev Ht Hf Hn. split; [|done].
  apply EVAL_with_rethrows; [|done].
  rewrite EVAL_NOT_CATCH_application by done.
  unfold application, bind. fold (EVAL core_call fuel). rewrite Hev.
  unfold checkMalTypeIsMalList. rewrite checkMalType_expected. simpl.
  by destruct func.
Qed.

(** [(5 1)] *)
Lemma calling_a_non_function_witness :
  EVAL core_spec 2 call_5 GlobalEnv empty_state = Throw (JsNotCallable (MalNumber 5)) empty_state
  ∧ isMalError (JsNotCallable (MalNumber 5)) = false.
Proof.
  apply (calling_a_non_function core_spec 1 (MalNumber 5) [MalNumber 1] GlobalEnv empty_state
           (MalNumber 5) [MalNumber 1] empty_state);
    first [reflexivity | discriminate].
Defined.

(** X16: [EVAL_AST] keeps the shape of its argument. When it returns, a
    symbol has given the term it is bound to, with the state unchanged; a
    List has given a List, and a Vector a Vector, of the same length; a
    HashMap has given a HashMap with the same keys in the same order, the
    keys not evaluated; and any other term has given itself, with the
    state unchanged. *)
Theorem EVAL_AST_keeps_the_shape EVAL ast env st r st' :
  EVAL_AST EVAL ast env st = Return r st' →
  match ast with
  | MalSymbol s => MalEnv.lookup st env s = Some r ∧ st' = st
  | MalList items => ∃ items', r = MalList items' ∧ length items' = length items
  | MalVector items => ∃ items', r = MalVector items' ∧ length items' = length items
  | MalHashMap entries => ∃ entries', r = MalHashMap entries' ∧ entries'.*1 = entries.*1
  | _ => r = ast ∧ st' = st
  end.
Proof.
  destruct ast; simpl; try (by intros [= <- <-]).
  - unfold MalEnv.get. destruct (MalEnv.lookup st env s); [by intros [= <- <-]|done].
  - unfold bind. destruct (mapM _ items st) as [items' st1| |] eqn:E; try done.
    intros [= <- _]. eexists. split; [done|]. by eapply mapM_length.
  - unfold bind. destruct (mapM _ items st) as [items' st1| |] eqn:E; try done.
    intros [= <- _]. eexists. split; [done|]. by eapply mapM_length.
  - unfold bind at 1. destruct (mapM _ entries st) as [entries' st1| |] eqn:E; try done.
    intros [= <- _]. eexists. split; [done|]. by eapply (mapM_keys (λ v, EVAL v env)).
Qed.

(** [{:k f}] where [f] is bound to a function. *)
Lemma EVAL_AST_keeps_the_shape_witness :
  ∃ entries',
    MalHashMap [(MalKeyword "k", MalFunction 0)] = MalHashMap entries'
    ∧ entries'.*1 = [(MalKeyword "k", MalSymbol "f")].*1.
Proof.
  apply (EVAL_AST_keeps_the_shape (EVAL core_spec 1)
           (MalHashMap [(MalKeyword "k", MalSymbol "f")]) GlobalEnv function_state
           (MalHashMap [(MalKeyword "k", MalFunction 0)]) function_state).
  reflexivity.
Defined.

(** X17: a [do] form that is no macro call evaluates each of its
    arguments in turn and then goes round the loop with the value of the
    last one, so that value is evaluated once more, as a form, in the same
    environment. *)
Theorem do_evaluates_last_value_again core_call fuel env args st :
  isMacroFunction env (MalList (MalSymbol Symbols.Do :: args)) st = Return false st →
  args ≠ [] →
  EVAL_NOT_CATCH core_call (S fuel) (MalList (MalSymbol Symbols.Do :: args)) env st
  = (results <- mapM (λ arg, EVAL core_call fuel arg env) args ;;
     EVAL_NOT_CATCH core_call fuel (default JsUndefined (last results)) env) st.
Proof.
  intros Hm Hne. rewrite EVAL_NOT_CATCH_special_form by done.
  unfold special_form. simpl. unfold DO, checkMalInnerMultipleParameters.
  rewrite bool_decide_eq_false_2 by (destruct args; simpl; [done|lia]).
  unfold bind, EVAL_AST, EVAL. simpl. unfold bind.
  rewrite drop_0. by destruct (mapM _ args st).
Qed.

(** [(do (quote (1 2)))]: the value [(1 2)] of the last argument is taken
    as a call of [1]. *)
Lemma do_evaluates_last_value_again_witness :
  EVAL_NOT_CATCH core_spec 4 do_quote_list GlobalEnv empty_state
  = (results <- mapM (λ arg, EVAL core_spec 3 arg GlobalEnv)
                  [quoted (MalList [MalNumber 1; MalNumber 2])] ;;
     EVAL_NOT_CATCH core_spec 3 (default JsUndefined (last results)) GlobalEnv) empty_state
  ∧ EVAL_NOT_CATCH core_spec 4 do_quote_list GlobalEnv empty_state
    = Throw (JsNotCallable (MalNumber 1)) empty_state.
Proof.
  split; [|reflexivity].
  apply (do_evaluates_last_value_again core_spec 3 GlobalEnv
           [quoted (MalList [MalNumber 1; MalNumber 2])] empty_state);
    [reflexivity|discriminate].
Defined.

(** X18: [let*] checks its bindings before it evaluates any of them.
    Bindings that are neither a List nor a Vector throw
    [MalUnexpectedTokenType], reported against MalVector, before an
    environment is created; bindings of odd length throw
    [MalUnexpectedLength] once the new environment exists, with nothing
    bound in it; with no bindings at all the body is handed back together
    with a new, empty child of the current environment. *)
Theorem LET_checks_bindings_first EVAL env bindings body st :
  (isMalSequential bindings = false →
   LET EVAL env [bindings; body] st
   = throw_new (MalUnexpectedTokenType bindings [ClsMalVector]) st)
  ∧ (isMalSequential bindings = true → length (seq_items bindings) `mod` 2 ≠ 0 →
     LET EVAL env [bindings; body] st
     = throw_new (MalUnexpectedLength bindings 2)
         (with_envs (λ es, es ++ [{| outer := Some env; data := ∅ |}]) st))
  ∧ (isMalSequential bindings = true → seq_items bindings = [] →
     LET EVAL env [bindings; body] st
     = Return (body, length (envs st))
         (with_envs (λ es, es ++ [{| outer := Some env; data := ∅ |}]) st)).
Proof.
  repeat split; intros Hs; unfold LET, bind, item; simpl;
    rewrite checkMalTypeIsMalSequential_outcome, Hs; [done| |].
  - intros Hodd. unfold checkMalSequentialBaseLength.
    by rewrite bool_decide_eq_true_2 by (by right).
  - intros Hnil. unfold checkMalSequentialBaseLength. rewrite Hnil. done.
Qed.

(** X19: [if] takes its else-branch exactly when the value of the
    condition is [false] or [nil]; every other value, the number 0, the
    empty string and the empty List included, selects the then-branch.
    Without an else-branch the form gives [nil] in the first case. The
    branch is handed back as it stands, in the state the condition left. *)
Theorem IF_chooses_by_false_and_nil EVAL env condition yes no st v st1 :
  EVAL condition env st = Return v st1 →
  (v = MalBoolean false ∨ v = MalNil →
   IF EVAL env [condition; yes; no] st = Return no st1
   ∧ IF EVAL env [condition; yes] st = Return MalNil st1)
  ∧ (v ≠ MalBoolean false → v ≠ MalNil →
     IF EVAL env [condition; yes; no] st = Return yes st1
     ∧ IF EVAL env [condition; yes] st = Return yes st1).
Proof.
  intros H. split.
  - intros [-> | ->]; split; unfold IF, bind, item; simpl; by rewrite H.
  - intros Hf Hn.
    assert (Hp : isPositive v = true)
      by (destruct v as [| [] | | | | | | | | | | | | | | |]; done).
    split; unfold IF, bind, item; simpl; by rewrite H, Hp.
Qed.

(** [(if 0 1 2)] gives the then-branch. *)
Lemma IF_chooses_by_false_and_nil_witness :
  IF (EVAL core_spec 1) GlobalEnv [MalNumber 0; MalNumber 1; MalNumber 2] empty_state
  = Return (MalNumber 1) empty_state
  ∧ IF (EVAL core_spec 1) GlobalEnv [MalNumber 0; MalNumber 1] empty_state
    = Return (MalNumber 1) empty_state.
Proof.
  apply (IF_chooses_by_false_and_nil (EVAL core_spec 1) GlobalEnv (MalNumber 0) (MalNumber 1)
           (MalNumber 2) empty_state (MalNumber 0) empty_state eq_refl);
    discriminate.
Defined.

(** X22: [fn*] succeeds exactly on a well-formed parameter list. When the
    parameters are a List or a Vector of symbols with [&] nowhere but at
    the last position but one, the form evaluates nothing and creates one
    function object, which holds the body unevaluated, the parameters and
    the current environment, and is no macro; the functions and
    environments there are stay as they were. Otherwise it throws a new
    Error and creates no function. *)
Theorem FN_makes_a_closure env bindings body st :
  (isMalSequential bindings = true
   ∧ well_formed_bindings (seq_items bindings) (length (seq_items bindings)) →
   FN env [bindings; body] st
   = Return (MalFunction (length (functions st)))
       (with_functions
          (λ fs, fs ++ [{| f_ast := body; f_params := bindings; f_env := env;
                           isMacro := false |}])
          st))
  ∧ (¬ (isMalSequential bindings = true
        ∧ well_formed_bindings (seq_items bindings) (length (seq_items bindings))) →
     ∃ k, FN env [bindings; body] st = throw_new k st).
Proof.
  destruct (checkMalBindings_from_accepts bindings (seq_items bindings) st) as [H1 H2].
  assert (Hrun : FN env [bindings; body] st
                 = (checkMalBindings Symbols.Fn bindings ;;
                    new_MalFunction body bindings env) st) by reflexivity.
  rewrite Hrun. unfold checkMalBindings, bind.
  rewrite checkMalTypeIsMalSequential_outcome.
  destruct (isMalSequential bindings).
  - split.
    + intros [_ Hwf]. apply H1 in Hwf. by rewrite Hwf.
    + intros Hno. destruct H2 as [k [Hok | Hthrow]].
      * destruct Hno. split; [done|]. by apply H1.
      * exists k. by rewrite Hthrow.
  - split; [by intros [? _]|]. intros _. by eexists.
Qed.

(** X23: a call of a function is a tail call in the environment of its
    definition. When a List is no macro call and no special form, and its
    elements evaluate to a List that starts with a function, the loop
    goes on with the body of the function in a new environment, built
    from the parameters and the evaluated arguments, whose parent is the
    environment the function was created in, not the one of the call. *)
Theorem function_call_continues_with_body core_call fuel head rest env st f params st1 fo :
  isMacroFunction env (MalList (head :: rest)) st = Return false st →
  (isMalSymbol head = true → symbol_name head ∉ special_symbols) →
  EVAL_AST (EVAL core_call fuel) (MalList (head :: rest)) env st
  = Return (MalList (MalFunction f :: params)) st1 →
  functions st1 !! f = Some fo →
  EVAL_NOT_CATCH core_call (S fuel) (MalList (head :: rest)) env st
  = (env' <- MalEnv.new (Some (f_env fo)) (seq_items (f_params fo)) params ;;
     EVAL_NOT_CATCH core_call fuel (f_ast fo) env') st1.
Proof.
  intros Hm Hs Hev Hf.
  rewrite EVAL_NOT_CATCH_application by done.
  unfold application, bind. fold (EVAL core_call fuel). rewrite Hev.
  unfold checkMalTypeIsMalList. rewrite checkMalType_expected. simpl.
  unfold function. by rewrite Hf.
Qed.

(** [(f 5)] inside [(let* (x 7) ...)], where [f] is [(fn* (a) a)] of the
    global environment: the new environment is a child of the global
    one. *)
Lemma function_call_continues_with_body_witness :
  EVAL_NOT_CATCH core_spec 2 (MalList [MalSymbol "f"; MalNumber 5]) 1 closure_state
  = (env' <- MalEnv.new (Some GlobalEnv) [MalSymbol "a"] [MalNumber 5] ;;
     EVAL_NOT_CATCH core_spec 1 (MalSymbol "a") env') closure_state.
Proof.
  apply (function_call_continues_with_body core_spec 1 (MalSymbol "f") [MalNumber 5] 1
           closure_state 0 [MalNumber 5] closure_state
           {| f_ast := MalSymbol "a"; f_params := MalList [MalSymbol "a"];
              f_env := GlobalEnv; isMacro := false |});
    try reflexivity.
  intros _. refine (bool_decide_unpack _ _). vm_compute. exact I.
Defined.

(* ===================================================================== *)
(** ** Further properties of the evaluator of the tail-call step *)
(* ===================================================================== *)

(** X20: in the evaluator of the tail-call step the head of a non-empty
    List must be a symbol: any other head, a [fn*] form or a nested call
    included, makes [EVAL] throw [MalUnexpectedTokenType] for the head
    before anything is evaluated. *)
Theorem Step5_rejects_a_form_without_head_symbol core_call fuel head rest env st :
  isMalSymbol head = false →
  Step5.EVAL core_call (S fuel) (MalList (head :: rest)) env st
  = throw_new (MalUnexpectedTokenType head [ClsMalSymbol]) st.
Proof.
  intros H. unfold Step5.EVAL. simpl. unfold Step5.EVAL_step. simpl.
  unfold bind, item. simpl. by rewrite checkMalTypeIsMalSymbol_outcome, H.
Qed.

(** [((fn* [x] x) 1)] *)
Lemma Step5_rejects_a_form_without_head_symbol_witness :
  Step5.EVAL core_spec 5 call_fn GlobalEnv empty_state
  = throw_new
      (MalUnexpectedTokenType
         (MalList [MalSymbol Symbols.Fn; MalVector [MalSymbol "x"]; MalSymbol "x"])
         [ClsMalSymbol])
      empty_state.
Proof.
  apply (Step5_rejects_a_form_without_head_symbol core_spec 4
           (MalList [MalSymbol Symbols.Fn; MalVector [MalSymbol "x"]; MalSymbol "x"])
           [MalNumber 1] GlobalEnv empty_state).
  reflexivity.
Defined.

(** X21: in the evaluator of the tail-call step [def!], [let*] and [fn*]
    throw [MalParametersError] when they are not given two arguments, and
    nothing is evaluated; the Error of [fn*] names the symbol [if], not
    [fn*]. *)
Theorem Step5_arity_errors EVAL env args st :
  length args ≠ 2 →
  Step5.DEF EVAL env args st = throw_new (MalParametersError Symbols.Def (length args) 2) st
  ∧ Step5.LET EVAL env args st
    = throw_new (MalParametersError Symbols.Let (length args) 2) st
  ∧ Step5.FN env args st = throw_new (MalParametersError Symbols.If (length args) 2) st.
Proof.
  intros H. repeat split; unfold Step5.DEF, Step5.LET, Step5.FN, bind;
    by rewrite checkMalInnerParameters_fails.
Qed.

(** [(fn* [x])] *)
Lemma Step5_arity_errors_witness :
  Step5.DEF (Step5.EVAL core_spec 1) GlobalEnv [MalVector [MalSymbol "x"]] empty_state
  = throw_new (MalParametersError Symbols.Def 1 2) empty_state
  ∧ Step5.LET (Step5.EVAL core_spec 1) GlobalEnv [MalVector [MalSymbol "x"]] empty_state
    = throw_new (MalParametersError Symbols.Let 1 2) empty_state
  ∧ Step5.FN GlobalEnv [MalVector [MalSymbol "x"]] empty_state
    = throw_new (MalParametersError Symbols.If 1 2) empty_state.
Proof.
  apply (Step5_arity_errors (Step5.EVAL core_spec 1) GlobalEnv [MalVector [MalSymbol "x"]]
           empty_state).
  discriminate.
Defined.
